(** * garr: the worker pool ([worker-pool/pool.go]) and the attempt-limiting
    backoff ([retry]), embedded as an interleaving state machine.

    Every goroutine is a program counter ([pc]) over the statements of the
    method it runs; one [step] performs one access to shared memory (one
    atomic operation, one channel operation, one [select]).  The caller of
    the pool is the environment: it may allocate tasks, enter any exported
    method in a fresh goroutine, cancel scopes and read futures, in any
    order. *)

From stdpp Require Import base numbers list gmap.

(** ** Values *)

(** [error]: the values [ctx.Err()] and an executor can return. *)
Inductive error :=
| Canceled
| DeadlineExceeded
| UserError (code : nat).

(** [interface{}]: nil or some value. *)
Inductive iface :=
| inil
| ival (v : Z).

(** [type TaskResult struct { Result interface{}; Err error }] *)
Record TaskResult := mkResult { Result : iface; Err : option error }.

(** A [context.Context] a task can be bound to: the pool's own scope
    ([p.ctx]) or a scope supplied by the caller. *)
Inductive ctx :=
| PoolCtx
| UserCtx (k : nat).

(** [func(context.Context) (interface{}, error)]: the value and the error
    the function returns, if it returns, given [ctx.Err()] of the scope it is
    called with.  Whether a call returns, stays blocked or panics is not
    up to the pool: a goroutine inside an executor waits for one of the
    labels [LReturn] and [LPanic] below. *)
Definition executor := option error -> iface * option error.

(** [type Task struct { ctx; executor; future chan *TaskResult }]; the
    future is the buffer of a channel of capacity 1. *)
Record Task := mkTask {
  t_ctx : option ctx;
  t_executor : option executor;
  t_future : list TaskResult
}.

Definition future_cap : nat := 1.

(** [NewTask] *)
Definition NewTask (c : option ctx) (e : option executor) : Task :=
  {| t_ctx := c; t_executor := e; t_future := [] |}.

(** ** Option *)

Record Option := mkOption {
  DisableAutoStart : bool;
  NumberWorker : Z;
  ExpandableLimit : Z;
  ExpandedLifetime : Z
}.

(** [time.Minute], in nanoseconds. *)
Definition Minute : Z := 60 * 1000000000.

(** [func (o *Option) normalize()]; [numCPU] is [runtime.NumCPU()]. *)
Definition normalize (numCPU : Z) (o : Option) : Option :=
  let o1 :=
    if (NumberWorker o <=? 0)%Z
    then {| DisableAutoStart := DisableAutoStart o; NumberWorker := numCPU;
            ExpandableLimit := ExpandableLimit o;
            ExpandedLifetime := ExpandedLifetime o |}
    else o in
  let o2 :=
    if (ExpandableLimit o1 <? 0)%Z
    then {| DisableAutoStart := DisableAutoStart o1;
            NumberWorker := NumberWorker o1; ExpandableLimit := 0;
            ExpandedLifetime := ExpandedLifetime o1 |}
    else o1 in
  if (ExpandedLifetime o2 <=? 0)%Z
  then {| DisableAutoStart := DisableAutoStart o2;
          NumberWorker := NumberWorker o2;
          ExpandableLimit := ExpandableLimit o2; ExpandedLifetime := Minute |}
  else o2.

(** ** Pool *)

(** [type Pool struct].  [p_ctx] is [p.ctx.Err()]: [None] while the pool
    scope is not done.  [taskQueue] is the buffer of [make(chan *Task, 1)],
    a task being the index of its cell in the heap; [closed] says whether
    the channel was closed.  Of the [sync.WaitGroup], [wg] is the counter
    (an [int32], the upper half of its state word), [waiters] the number of
    goroutines registered in [Wait] (the lower half) and [sema] the
    semaphore they sleep on. *)
Record Pool := mkPool {
  p_ctx : option error;
  opt : Option;
  wg : Z;
  waiters : nat;
  sema : nat;
  taskQueue : list nat;
  closed : bool;
  expanded : Z;
  state : Z
}.

Definition queue_cap : nat := 1.

Definition set_p_ctx (e : option error) (p : Pool) : Pool :=
  {| p_ctx := e; opt := opt p; wg := wg p; waiters := waiters p;
     sema := sema p; taskQueue := taskQueue p; closed := closed p;
     expanded := expanded p; state := state p |}.
Definition set_wg (n : Z) (p : Pool) : Pool :=
  {| p_ctx := p_ctx p; opt := opt p; wg := n; waiters := waiters p;
     sema := sema p; taskQueue := taskQueue p; closed := closed p;
     expanded := expanded p; state := state p |}.
Definition set_waiters (n : nat) (p : Pool) : Pool :=
  {| p_ctx := p_ctx p; opt := opt p; wg := wg p; waiters := n;
     sema := sema p; taskQueue := taskQueue p; closed := closed p;
     expanded := expanded p; state := state p |}.
Definition set_sema (n : nat) (p : Pool) : Pool :=
  {| p_ctx := p_ctx p; opt := opt p; wg := wg p; waiters := waiters p;
     sema := n; taskQueue := taskQueue p; closed := closed p;
     expanded := expanded p; state := state p |}.
Definition set_taskQueue (q : list nat) (p : Pool) : Pool :=
  {| p_ctx := p_ctx p; opt := opt p; wg := wg p; waiters := waiters p;
     sema := sema p; taskQueue := q; closed := closed p;
     expanded := expanded p; state := state p |}.
Definition set_closed (b : bool) (p : Pool) : Pool :=
  {| p_ctx := p_ctx p; opt := opt p; wg := wg p; waiters := waiters p;
     sema := sema p; taskQueue := taskQueue p; closed := b;
     expanded := expanded p; state := state p |}.
Definition set_expanded (n : Z) (p : Pool) : Pool :=
  {| p_ctx := p_ctx p; opt := opt p; wg := wg p; waiters := waiters p;
     sema := sema p; taskQueue := taskQueue p; closed := closed p;
     expanded := n; state := state p |}.
Definition set_state (n : Z) (p : Pool) : Pool :=
  {| p_ctx := p_ctx p; opt := opt p; wg := wg p; waiters := waiters p;
     sema := sema p; taskQueue := taskQueue p; closed := closed p;
     expanded := expanded p; state := n |}.

(** Two's-complement wrap-around of an [int32]. *)
Definition wrap32 (z : Z) : Z := ((z + 2 ^ 31) mod 2 ^ 32 - 2 ^ 31)%Z.
Arguments wrap32 : simpl never.

(** [atomic.AddInt32(&p.expanded, delta)]: the new value, and the pool. *)
Definition AddInt32_expanded (delta : Z) (p : Pool) : Z * Pool :=
  let n := wrap32 (expanded p + delta) in (n, set_expanded n p).

(** [atomic.CompareAndSwapUint32(&p.state, old, new)] *)
Definition CompareAndSwap_state (old new : Z) (p : Pool) : bool * Pool :=
  if (state p =? old)%Z then (true, set_state new p) else (false, p).

(** [cancel()] of [context.WithCancel]: the first cause wins. *)
Definition cancel (p : Pool) : Pool :=
  match p_ctx p with
  | Some _ => p
  | None => set_p_ctx (Some Canceled) p
  end.

(** ** Goroutines *)

(** Which worker loop called [Task.Execute]. *)
Inductive loop := CoreLoop | ExpandedLoop.

(** The program points of the methods, one per access to shared memory. *)
Inductive pc :=
(* Start *)
| PStart                                  (* CompareAndSwapUint32(&p.state, 0, 1) *)
| PStartAdd                               (* p.wg.Add(numWorker) *)
| PStartWake (w : nat)                    (* ... its second half, see [wg_wake] *)
| PStartGo (i : Z)                        (* i < numWorker; go p.worker(); i++ *)
(* Stop *)
| PStop1                                  (* CompareAndSwapUint32(&p.state, 1, 2) *)
| PStop2                                  (* || CompareAndSwapUint32(&p.state, 0, 2) *)
| PStopCancel                             (* p.cancel() *)
| PStopClose                              (* close(p.taskQueue) *)
| PStopWait                               (* p.wg.Wait(): the counter is read *)
| PStopSleep                              (* ... asleep on the semaphore *)
| PStopWoken                              (* ... woken: the state is read again *)
(* Do *)
| PDo (t : option nat)                    (* t != nil; t.ctx == nil; ExpandableLimit == 0 *)
| PDoSelect (t : nat)                     (* select { case p.taskQueue <- t: default: *)
| PDoAdd (t : nat)                        (* atomic.AddInt32(&p.expanded, 1) <= limit *)
| PDoWgAdd (t : nat)                      (* p.wg.Add(1) *)
| PDoWake (t : nat) (w : nat)             (* ... its second half *)
| PDoGo (t : nat)                         (* go p.expandedWorker() *)
| PDoRollback (t : nat)                   (* atomic.AddInt32(&p.expanded, -1) *)
(* push *)
| PPush (t : nat)                         (* select of push *)
| PPushSend (t : nat) (r : TaskResult)    (* t.future <- &TaskResult{Err: ...} *)
(* TryDo *)
| PTryDo (t : option nat)                 (* t != nil; t.ctx == nil *)
| PTrySelect (t : nat)                    (* select of TryDo *)
| PTrySend (t : nat) (r : TaskResult)     (* t.future <- &TaskResult{Err: ...} *)
(* worker *)
| PWorker                                 (* for task := range p.taskQueue *)
| PWorkerDone                             (* p.wg.Done() *)
| PWorkerWake (w : nat)                   (* ... its second half *)
(* expandedWorker *)
| PExpStart                               (* timer := time.NewTimer(lifetime) *)
| PExpSelect (fired : bool)               (* select { case task, ok := <-queue; case <-timer.C *)
| PExpStopTimer (t : option nat) (fired : bool)  (* stopTimer(timer); if !ok *)
| PExpReset                               (* timer.Reset(lifetime) *)
| PExpDone                                (* deferred: p.wg.Done() *)
| PExpWake (w : nat)                      (* ... its second half *)
| PExpSub                                 (* deferred: atomic.AddInt32(&p.expanded, -1) *)
(* Task.Execute *)
| PExecute (l : loop) (t : nat)           (* if t.executor != nil { call t.executor(t.ctx) *)
| PExecuting (l : loop) (t : nat) (r : TaskResult)  (* inside t.executor, which
                                             returns r if it returns *)
| PExecuteSend (l : loop) (t : nat) (r : TaskResult)  (* t.future <- &TaskResult{...} *)
(* the goroutine has returned; [Some b] is TryDo's addedToQueue *)
| PRet (r : option bool).

(** The exported methods a goroutine of the caller can enter. *)
Inductive call :=
| CStart
| CStop
| CDo (t : option nat)
| CTryDo (t : option nat).

(** Which path wrote a result: [Task.Execute], or the bypass of
    [push]/[TryDo] on a cancelled scope. *)
Inductive origin := ByExecute | ByCancel.

(** What an observer of the run can count. *)
Inductive event :=
| EvCall (k : call)                           (* the caller entered a method *)
| EvInvoke (t : nat)                          (* t.executor was called *)
| EvResult (o : origin) (t : nat) (r : TaskResult)  (* r was sent on t.future *)
| EvState (old new : Z)                       (* a compare-and-swap of p.state succeeded *)
| EvReject (t : nat)                          (* TryDo took its default branch *)
| EvSpawn                                     (* go p.expandedWorker() *)
| EvRetire.                                   (* an expanded worker returned *)

Record config := mkConfig {
  pool : Pool;
  heap : list Task;
  scopes : gmap nat error;       (* the caller's scopes that are done, with their Err() *)
  threads : list pc;
  panicked : bool;
  log : list event               (* newest first *)
}.

Definition set_pool (p : Pool) (c : config) : config :=
  {| pool := p; heap := heap c; scopes := scopes c; threads := threads c;
     panicked := panicked c; log := log c |}.
Definition set_heap (h : list Task) (c : config) : config :=
  {| pool := pool c; heap := h; scopes := scopes c; threads := threads c;
     panicked := panicked c; log := log c |}.
Definition set_scopes (s : gmap nat error) (c : config) : config :=
  {| pool := pool c; heap := heap c; scopes := s; threads := threads c;
     panicked := panicked c; log := log c |}.
Definition set_threads (ts : list pc) (c : config) : config :=
  {| pool := pool c; heap := heap c; scopes := scopes c; threads := ts;
     panicked := panicked c; log := log c |}.
Definition emit (e : event) (c : config) : config :=
  {| pool := pool c; heap := heap c; scopes := scopes c; threads := threads c;
     panicked := panicked c; log := e :: log c |}.
(** An unrecovered panic ends the process. *)
Definition panic (c : config) : config :=
  {| pool := pool c; heap := heap c; scopes := scopes c; threads := threads c;
     panicked := true; log := log c |}.

(** Goroutine [i] moves to [p]. *)
Definition goto (i : nat) (p : pc) (c : config) : config :=
  set_threads (<[i := p]> (threads c)) c.
(** [go f()] *)
Definition spawn (p : pc) (c : config) : config :=
  set_threads (threads c ++ [p]) c.
Definition upd_pool (f : Pool -> Pool) (c : config) : config :=
  set_pool (f (pool c)) c.

(** [c.Err()] of a scope. *)
Definition ctx_err (c : config) (x : ctx) : option error :=
  match x with
  | PoolCtx => p_ctx (pool c)
  | UserCtx k => scopes c !! k
  end.

(** What a statement does when a goroutine tries it. *)
Inductive outcome :=
| Blocked                 (* it cannot proceed now *)
| Panics                  (* it panics *)
| Next (c : config).      (* it completes *)

Definition and_then (o : outcome) (k : config -> config) : outcome :=
  match o with
  | Next c => Next (k c)
  | _ => o
  end.

(** [p.wg.Add(delta)], and [p.wg.Done()], which is [Add(-1)].  The first
    half is one atomic addition to the state word, followed by checks of
    the value it returned: the new counter [v], an [int32], must not be
    negative; a positive [delta] must not have found the counter at zero
    with goroutines waiting.  If the counter is positive or nobody waits,
    [Add] returns; otherwise it goes on to wake the [w] waiters. *)
Inductive added :=
| AddPanics
| AddReturns (c : config)
| AddWakes (w : nat) (c : config).

Definition wg_Add (delta : Z) (c : config) : added :=
  let v := wrap32 (wg (pool c) + delta) in
  let w := waiters (pool c) in
  if (v <? 0)%Z then AddPanics
  else if negb (w =? 0)%nat && (0 <? delta)%Z && (v =? wrap32 delta)%Z
       then AddPanics
  else if (0 <? v)%Z || (w =? 0)%nat then AddReturns (upd_pool (set_wg v) c)
  else AddWakes w (upd_pool (set_wg v) c).

Definition after_Add (a : added) (i : nat) (next : pc) (wake : nat -> pc)
  : outcome :=
  match a with
  | AddPanics => Panics
  | AddReturns c => Next (goto i next c)
  | AddWakes w c => Next (goto i (wake w) c)
  end.

(** The second half of [Add], for the goroutine that brought the counter
    to zero while [w] goroutines waited: the state word must still be what
    the addition returned; it is reset to zero and the semaphore is
    released once per waiter. *)
Definition wg_wake (w : nat) (c : config) : outcome :=
  if (wg (pool c) =? 0)%Z && (waiters (pool c) =? w)%nat
  then Next (upd_pool (fun p => set_sema (sema p + w) (set_waiters 0 p)) c)
  else Panics.

(** [p.taskQueue <- t]: a send on a closed channel panics; otherwise the
    buffer must have room. *)
Definition queue_send (t : nat) (c : config) : outcome :=
  if closed (pool c) then Panics
  else if (length (taskQueue (pool c)) <? queue_cap)%nat
       then Next (upd_pool (set_taskQueue (taskQueue (pool c) ++ [t])) c)
       else Blocked.

(** [<-p.taskQueue], when the receive can proceed: [Some t] is a task,
    [None] the zero value of a closed and drained channel. *)
Definition queue_recv (c : config) : option (option nat * config) :=
  match taskQueue (pool c) with
  | t :: q => Some (Some t, upd_pool (set_taskQueue q) c)
  | [] => if closed (pool c) then Some (None, c) else None
  end.

Definition set_future (f : list TaskResult) (tk : Task) : Task :=
  {| t_ctx := t_ctx tk; t_executor := t_executor tk; t_future := f |}.
Definition set_t_ctx (x : option ctx) (tk : Task) : Task :=
  {| t_ctx := x; t_executor := t_executor tk; t_future := t_future tk |}.

(** [t.future <- r]: the buffer of the future must have room. *)
Definition future_send (o : origin) (t : nat) (r : TaskResult) (c : config)
  : outcome :=
  match heap c !! t with
  | Some tk =>
      if (length (t_future tk) <? future_cap)%nat
      then Next (emit (EvResult o t r)
                   (set_heap (<[t := set_future (t_future tk ++ [r]) tk]> (heap c)) c))
      else Blocked
  | None => Panics
  end.

(** The branch taken in a [select], or [ChRun] for a plain statement. *)
Inductive choice :=
| ChRun
| ChPoolDone        (* case <-p.ctx.Done() *)
| ChTaskDone        (* case <-t.ctx.Done() *)
| ChSend            (* case p.taskQueue <- t *)
| ChRecv            (* case task, ok := <-p.taskQueue *)
| ChTimer           (* case <-timer.C *)
| ChDefault.        (* default *)

Definition cancel_result (e : error) : TaskResult :=
  {| Result := inil; Err := Some e |}.

(** [if t.ctx == nil { t.ctx = p.ctx }] *)
Definition bind_ctx (t : nat) (tk : Task) (c : config) : config :=
  match t_ctx tk with
  | Some _ => c
  | None => set_heap (<[t := set_t_ctx (Some PoolCtx) tk]> (heap c)) c
  end.

(** [t.ctx] *)
Definition task_ctx (c : config) (t : nat) : option ctx :=
  match heap c !! t with
  | Some tk => t_ctx tk
  | None => None
  end.

(** [case <-x.Done()] with body [t.future <- &TaskResult{Err: x.Err()}]:
    the branch is ready once the scope is done. *)
Definition on_done (e : option error) (k : TaskResult -> config) : outcome :=
  match e with
  | Some e => Next (k (cancel_result e))
  | None => Blocked
  end.

(** One step of goroutine [i], which is at [p], taking branch [ch]. *)
Definition step_pc (i : nat) (p : pc) (ch : choice) (c : config) : outcome :=
  match p, ch with
  (* func (p *Pool) Start() *)
  | PStart, ChRun =>
      match CompareAndSwap_state 0 1 (pool c) with
      | (true, p') => Next (goto i PStartAdd (emit (EvState 0 1) (set_pool p' c)))
      | (false, _) => Next (goto i (PRet None) c)
      end
  | PStartAdd, ChRun =>
      after_Add (wg_Add (NumberWorker (opt (pool c))) c) i (PStartGo 0) PStartWake
  | PStartWake w, ChRun => and_then (wg_wake w c) (goto i (PStartGo 0))
  | PStartGo k, ChRun =>
      if (k <? NumberWorker (opt (pool c)))%Z
      then Next (goto i (PStartGo (k + 1)) (spawn PWorker c))
      else Next (goto i (PRet None) c)
  (* func (p *Pool) Stop() *)
  | PStop1, ChRun =>
      match CompareAndSwap_state 1 2 (pool c) with
      | (true, p') => Next (goto i PStopCancel (emit (EvState 1 2) (set_pool p' c)))
      | (false, _) => Next (goto i PStop2 c)
      end
  | PStop2, ChRun =>
      match CompareAndSwap_state 0 2 (pool c) with
      | (true, p') => Next (goto i PStopCancel (emit (EvState 0 2) (set_pool p' c)))
      | (false, _) => Next (goto i (PRet None) c)
      end
  | PStopCancel, ChRun => Next (goto i PStopClose (upd_pool cancel c))
  | PStopClose, ChRun =>
      if closed (pool c) then Panics
      else Next (goto i PStopWait (upd_pool (set_closed true) c))
  (* func (wg *WaitGroup) Wait(): with the counter at zero it returns at
     once; otherwise the goroutine registers as a waiter and sleeps until
     [Add] releases the semaphore, and panics if the wait group was used
     again before it woke. *)
  | PStopWait, ChRun =>
      if (wg (pool c) =? 0)%Z then Next (goto i (PRet None) c)
      else Next (goto i PStopSleep
                   (upd_pool (set_waiters (S (waiters (pool c)))) c))
  | PStopSleep, ChRun =>
      match sema (pool c) with
      | S n => Next (goto i PStopWoken (upd_pool (set_sema n) c))
      | O => Blocked
      end
  | PStopWoken, ChRun =>
      if (wg (pool c) =? 0)%Z && (waiters (pool c) =? 0)%nat
      then Next (goto i (PRet None) c)
      else Panics
  (* func (p *Pool) Do(t *Task) *)
  | PDo None, ChRun => Next (goto i (PRet None) c)
  | PDo (Some t), ChRun =>
      match heap c !! t with
      | Some tk =>
          if (ExpandableLimit (opt (pool c)) =? 0)%Z
          then Next (goto i (PPush t) (bind_ctx t tk c))
          else Next (goto i (PDoSelect t) (bind_ctx t tk c))
      | None => Panics
      end
  | PDoSelect t, ChSend => and_then (queue_send t c) (goto i (PRet None))
  | PDoSelect t, ChDefault =>
      match queue_send t c with
      | Blocked => Next (goto i (PDoAdd t) c)
      | _ => Blocked
      end
  | PDoAdd t, ChRun =>
      let '(n, p') := AddInt32_expanded 1 (pool c) in
      if (n <=? ExpandableLimit (opt (pool c)))%Z
      then Next (goto i (PDoWgAdd t) (set_pool p' c))
      else Next (goto i (PDoRollback t) (set_pool p' c))
  | PDoWgAdd t, ChRun => after_Add (wg_Add 1 c) i (PDoGo t) (PDoWake t)
  | PDoWake t w, ChRun => and_then (wg_wake w c) (goto i (PDoGo t))
  | PDoGo t, ChRun => Next (goto i (PPush t) (emit EvSpawn (spawn PExpStart c)))
  | PDoRollback t, ChRun =>
      Next (goto i (PPush t) (set_pool (snd (AddInt32_expanded (-1) (pool c))) c))
  (* func (p *Pool) push(t *Task) *)
  | PPush t, _ =>
      match task_ctx c t with
      | None => Panics
      | Some x =>
          match ch with
          | ChPoolDone =>
              on_done (p_ctx (pool c)) (fun r => goto i (PPushSend t r) c)
          | ChTaskDone =>
              on_done (ctx_err c x) (fun r => goto i (PPushSend t r) c)
          | ChSend => and_then (queue_send t c) (goto i (PRet None))
          | _ => Blocked
          end
      end
  | PPushSend t r, ChRun =>
      and_then (future_send ByCancel t r c) (goto i (PRet None))
  (* func (p *Pool) TryDo(t *Task) (addedToQueue bool) *)
  | PTryDo None, ChRun => Next (goto i (PRet (Some false)) c)
  | PTryDo (Some t), ChRun =>
      match heap c !! t with
      | Some tk => Next (goto i (PTrySelect t) (bind_ctx t tk c))
      | None => Panics
      end
  | PTrySelect t, _ =>
      match task_ctx c t with
      | None => Panics
      | Some x =>
          match ch with
          | ChPoolDone =>
              on_done (p_ctx (pool c)) (fun r => goto i (PTrySend t r) c)
          | ChTaskDone =>
              on_done (ctx_err c x) (fun r => goto i (PTrySend t r) c)
          | ChSend => and_then (queue_send t c) (goto i (PRet (Some true)))
          | ChDefault =>
              match p_ctx (pool c), ctx_err c x, queue_send t c with
              | None, None, Blocked =>
                  Next (goto i (PRet (Some false)) (emit (EvReject t) c))
              | _, _, _ => Blocked
              end
          | _ => Blocked
          end
      end
  | PTrySend t r, ChRun =>
      and_then (future_send ByCancel t r c) (goto i (PRet (Some false)))
  (* func (p *Pool) worker() *)
  | PWorker, ChRun =>
      match queue_recv c with
      | Some (Some t, c') => Next (goto i (PExecute CoreLoop t) c')
      | Some (None, c') => Next (goto i PWorkerDone c')
      | None => Blocked
      end
  | PWorkerDone, ChRun => after_Add (wg_Add (-1) c) i (PRet None) PWorkerWake
  | PWorkerWake w, ChRun => and_then (wg_wake w c) (goto i (PRet None))
  (* func (p *Pool) expandedWorker() *)
  | PExpStart, ChRun => Next (goto i (PExpSelect false) c)
  | PExpSelect fired, ChRecv =>
      match queue_recv c with
      | Some (ot, c') => Next (goto i (PExpStopTimer ot fired) c')
      | None => Blocked
      end
  | PExpSelect fired, ChTimer =>
      if fired then Next (goto i PExpDone c) else Blocked
  | PExpStopTimer ot _, ChRun =>
      match ot with
      | Some t => Next (goto i (PExecute ExpandedLoop t) c)
      | None => Next (goto i PExpDone c)
      end
  | PExpReset, ChRun => Next (goto i (PExpSelect false) c)
  | PExpDone, ChRun => after_Add (wg_Add (-1) c) i PExpSub PExpWake
  | PExpWake w, ChRun => and_then (wg_wake w c) (goto i PExpSub)
  | PExpSub, ChRun =>
      Next (goto i (PRet None)
              (emit EvRetire (set_pool (snd (AddInt32_expanded (-1) (pool c))) c)))
  (* func (t *Task) Execute(): a goroutine at [PExecuting] is inside the
     executor and has no step of its own. *)
  | PExecute l t, ChRun =>
      match heap c !! t with
      | Some tk =>
          match t_executor tk with
          | None =>
              Next (goto i (PExecuteSend l t {| Result := inil; Err := None |}) c)
          | Some f =>
              let '(v, e) := f (x ← t_ctx tk; ctx_err c x) in
              Next (goto i (PExecuting l t {| Result := v; Err := e |})
                      (emit (EvInvoke t) c))
          end
      | None => Panics
      end
  | PExecuteSend l t r, ChRun =>
      and_then (future_send ByExecute t r c)
        (goto i (match l with
                 | CoreLoop => PWorker
                 | ExpandedLoop => PExpReset
                 end))
  | _, _ => Blocked
  end.

(** ** The caller *)

Definition entry (k : call) : pc :=
  match k with
  | CStart => PStart
  | CStop => PStop1
  | CDo t => PDo t
  | CTryDo t => PTryDo t
  end.

(** A task pointer is nil or a cell of the heap. *)
Definition valid_call (c : config) (k : call) : bool :=
  match k with
  | CDo (Some t) | CTryDo (Some t) => bool_decide (t < length (heap c))%nat
  | _ => true
  end.

Inductive label :=
| LNewTask (x : option ctx) (e : option executor)  (* NewTask(ctx, executor) *)
| LCall (k : call)                (* a goroutine of the caller enters a method *)
| LCancelScope (k : nat) (e : error)   (* a scope of the caller becomes done *)
| LCancelParent (e : error)       (* the parent of the pool scope becomes done *)
| LTimer (i : nat)                (* the timer of expanded worker [i] fires *)
| LResult (t : nat)               (* the caller receives from t.Result() *)
| LReturn (i : nat)               (* the executor called by goroutine [i] returns *)
| LPanic (i : nat)                (* the executor called by goroutine [i] panics *)
| LStep (i : nat) (ch : choice).  (* goroutine [i] takes a step *)

Definition step (c : config) (l : label) : option config :=
  if panicked c then None else
  match l with
  | LNewTask x e => Some (set_heap (heap c ++ [NewTask x e]) c)
  | LCall k =>
      if valid_call c k then Some (emit (EvCall k) (spawn (entry k) c)) else None
  | LCancelScope k e =>
      match scopes c !! k with
      | None => Some (set_scopes (<[k := e]> (scopes c)) c)
      | Some _ => None
      end
  | LCancelParent e =>
      match p_ctx (pool c) with
      | None => Some (upd_pool (set_p_ctx (Some e)) c)
      | Some _ => None
      end
  | LTimer i =>
      match threads c !! i with
      | Some (PExpSelect false) => Some (goto i (PExpSelect true) c)
      | Some (PExpStopTimer ot false) => Some (goto i (PExpStopTimer ot true) c)
      | _ => None
      end
  | LResult t =>
      match heap c !! t with
      | Some tk =>
          match t_future tk with
          | _ :: rest => Some (set_heap (<[t := set_future rest tk]> (heap c)) c)
          | [] => None
          end
      | None => None
      end
  | LReturn i =>
      match threads c !! i with
      | Some (PExecuting l t r) => Some (goto i (PExecuteSend l t r) c)
      | _ => None
      end
  | LPanic i =>
      match threads c !! i with
      | Some (PExecuting _ _ _) => Some (panic c)
      | _ => None
      end
  | LStep i ch =>
      match threads c !! i with
      | Some p =>
          match step_pc i p ch c with
          | Next c' => Some c'
          | Panics => Some (panic c)
          | Blocked => None
          end
      | None => None
      end
  end.

(** A run: the labels taken from [c], in order. *)
Fixpoint run (c : config) (ls : list label) : option config :=
  match ls with
  | [] => Some c
  | l :: ls' =>
      match step c l with
      | Some c' => run c' ls'
      | None => None
      end
  end.

(** Goroutine [i] runs alone, plain statements only, for at most [fuel]
    steps: a synchronous call. *)
Fixpoint solo (fuel : nat) (i : nat) (c : config) : config :=
  match fuel with
  | O => c
  | S f =>
      match step c (LStep i ChRun) with
      | Some c' => solo f i c'
      | None => c
      end
  end.

(** The pool literal of [NewPool], with the normalized option, before
    [Start] is called. *)
Definition fresh (numCPU : Z) (parent : option error) (o : Option) : config :=
  {| pool := {| p_ctx := parent; opt := normalize numCPU o; wg := 0;
                waiters := 0; sema := 0; taskQueue := []; closed := false;
                expanded := 0; state := 0 |};
     heap := []; scopes := ∅; threads := []; panicked := false; log := [] |}.

(** [func NewPool(ctx context.Context, opt Option) (p *Pool)]: [parent] is
    [ctx.Err()] at the call ([None] for nil, which becomes
    [context.Background()]); [Start] runs in the calling goroutine before
    the pool is returned. *)
Definition NewPool (numCPU : Z) (parent : option error) (o : Option) : config :=
  let c := fresh numCPU parent o in
  if DisableAutoStart (opt (pool c)) then c
  else solo (Z.to_nat (NumberWorker (opt (pool c))) + 3) 0
         (emit (EvCall CStart) (spawn PStart c)).

(** [ExecuteWithCtx], [Execute], [TryExecuteWithCtx], [TryExecute]: the
    labels of the caller's goroutine up to the call of [Do] / [TryDo]. *)
Definition ExecuteWithCtx (c : config) (x : option ctx) (e : option executor)
  : list label :=
  [LNewTask (Some (default PoolCtx x)) e; LCall (CDo (Some (length (heap c))))].
Definition Execute (c : config) (e : option executor) : list label :=
  ExecuteWithCtx c (Some PoolCtx) e.
Definition TryExecuteWithCtx (c : config) (x : option ctx) (e : option executor)
  : list label :=
  [LNewTask (Some (default PoolCtx x)) e; LCall (CTryDo (Some (length (heap c))))].
Definition TryExecute (c : config) (e : option executor) : list label :=
  TryExecuteWithCtx c (Some PoolCtx) e.

(** ** Observations *)

(** How many elements of [l] satisfy [f]. *)
Fixpoint tally {A} (f : A -> bool) (l : list A) : nat :=
  match l with
  | [] => 0
  | x :: l' => (if f x then 1 else 0) + tally f l'
  end.

(** Goroutine [p] is in [Do], [push] or [TryDo] with task [t], before its
    [select] has been decided. *)
Definition submitting (t : nat) (p : pc) : bool :=
  match p with
  | PDo (Some t') | PDoSelect t' | PDoAdd t' | PDoWgAdd t' | PDoWake t' _
  | PDoGo t' | PDoRollback t' | PPush t' | PTryDo (Some t') | PTrySelect t' =>
      bool_decide (t' = t)
  | _ => false
  end.

(** Goroutine [p] took a cancellation branch for [t] and is about to write
    the error. *)
Definition bypassing (t : nat) (p : pc) : bool :=
  match p with
  | PPushSend t' _ | PTrySend t' _ => bool_decide (t' = t)
  | _ => false
  end.

(** Worker [p] received [t] from the queue and has not called its executor. *)
Definition received (t : nat) (p : pc) : bool :=
  match p with
  | PExpStopTimer (Some t') _ | PExecute _ t' => bool_decide (t' = t)
  | _ => false
  end.

(** Worker [p] ran the body of [Execute] for [t] and is about to write the
    result. *)
Definition executed (t : nat) (p : pc) : bool :=
  match p with
  | PExecuteSend _ t' _ => bool_decide (t' = t)
  | _ => false
  end.

Definition queued (t : nat) (c : config) : nat :=
  tally (fun t' => bool_decide (t' = t)) (taskQueue (pool c)).

Definition is_submit (t : nat) (e : event) : bool :=
  match e with
  | EvCall (CDo (Some t')) | EvCall (CTryDo (Some t')) => bool_decide (t' = t)
  | _ => false
  end.
Definition is_try (t : nat) (e : event) : bool :=
  match e with
  | EvCall (CTryDo (Some t')) => bool_decide (t' = t)
  | _ => false
  end.
Definition is_invoke (t : nat) (e : event) : bool :=
  match e with
  | EvInvoke t' => bool_decide (t' = t)
  | _ => false
  end.
Definition is_result (t : nat) (e : event) : bool :=
  match e with
  | EvResult _ t' _ => bool_decide (t' = t)
  | _ => false
  end.
Definition is_cancel_result (t : nat) (e : event) : bool :=
  match e with
  | EvResult ByCancel t' _ => bool_decide (t' = t)
  | _ => false
  end.
Definition is_reject (t : nat) (e : event) : bool :=
  match e with
  | EvReject t' => bool_decide (t' = t)
  | _ => false
  end.

(** How often [t] was passed to [Do] or [TryDo]; to [TryDo]. *)
Definition submissions (c : config) (t : nat) : nat := tally (is_submit t) (log c).
Definition try_submissions (c : config) (t : nat) : nat := tally (is_try t) (log c).
(** How often the executor of [t] was called. *)
Definition invocations (c : config) (t : nat) : nat := tally (is_invoke t) (log c).
(** How many results were written to the future of [t]; by a cancellation
    branch. *)
Definition results_written (c : config) (t : nat) : nat := tally (is_result t) (log c).
Definition cancel_results (c : config) (t : nat) : nat :=
  tally (is_cancel_result t) (log c).
(** How often [TryDo] returned through its default branch with [t]. *)
Definition rejections (c : config) (t : nat) : nat := tally (is_reject t) (log c).

(** No goroutine can take a step: all have returned or are blocked. *)
Definition settled (c : config) : Prop :=
  forall i ch, step c (LStep i ch) = None.

(** Goroutine [p] is inside an executor that has not returned. *)
Definition executing (p : pc) : bool :=
  match p with
  | PExecuting _ _ _ => true
  | _ => false
  end.

(** The goroutines that run [expandedWorker] and have not returned. *)
Definition is_expanded (p : pc) : bool :=
  match p with
  | PExpStart | PExpSelect _ | PExpStopTimer _ _ | PExpReset | PExpDone
  | PExpWake _ | PExpSub | PExecute ExpandedLoop _
  | PExecuting ExpandedLoop _ _ | PExecuteSend ExpandedLoop _ _ => true
  | _ => false
  end.
Definition live_expanded (c : config) : nat := tally is_expanded (threads c).

(** The goroutines in [Do] between the increment of [p.expanded] and the
    [go] statement; between the increment and its rollback. *)
Definition spawning (p : pc) : bool :=
  match p with
  | PDoWgAdd _ | PDoWake _ _ | PDoGo _ => true
  | _ => false
  end.
Definition rolling_back (p : pc) : bool :=
  match p with
  | PDoRollback _ => true
  | _ => false
  end.

Definition is_spawn (e : event) : bool :=
  match e with EvSpawn => true | _ => false end.
Definition is_retire (e : event) : bool :=
  match e with EvRetire => true | _ => false end.

(** The successful compare-and-swaps of the lifecycle flag, newest first. *)
Fixpoint transitions (l : list event) : list (Z * Z) :=
  match l with
  | [] => []
  | EvState a b :: l' => (a, b) :: transitions l'
  | _ :: l' => transitions l'
  end.

(** The program point of [TryDo] that corresponds to one of [push]. *)
Definition as_try (p : pc) : pc :=
  match p with
  | PPush t => PTrySelect t
  | PPushSend t r => PTrySend t r
  | PRet None => PRet (Some true)
  | _ => p
  end.
Definition retarget (i : nat) (c : config) : config :=
  match threads c !! i with
  | Some p => goto i (as_try p) c
  | None => c
  end.

(** ** Invariants *)

(** Goroutine [p] is responsible for task [t]: it has to enqueue it, run it
    or write its result. *)
Definition holding (t : nat) (p : pc) : bool :=
  match p with
  | PDo (Some t') | PDoSelect t' | PDoAdd t' | PDoWgAdd t' | PDoWake t' _
  | PDoGo t' | PDoRollback t' | PPush t' | PTryDo (Some t') | PTrySelect t'
  | PPushSend t' _ | PTrySend t' _
  | PExpStopTimer (Some t') _ | PExecute _ t' | PExecuting _ t' _
  | PExecuteSend _ t' _ => bool_decide (t' = t)
  | _ => false
  end.

(** Every submission of [t] is in exactly one place: with a goroutine, in
    the queue, resolved by a result, or rejected by [TryDo]. *)
Definition conserved (t : nat) (c : config) : Prop :=
  tally (holding t) (threads c) + queued t c + results_written c t
  + rejections c t = submissions c t.

(** A submission of [t] whose executor was called, or that was resolved by
    a cancellation branch, is nowhere else. *)
Definition run_or_cancelled (t : nat) (c : config) : Prop :=
  tally (submitting t) (threads c) + tally (bypassing t) (threads c)
  + tally (received t) (threads c) + queued t c + invocations c t
  + cancel_results c t + rejections c t <= submissions c t.

(** The buffer of a future holds no more than was written to it; only
    [TryDo] rejects. *)
Definition futures_bounded (c : config) : Prop :=
  forall t tk, heap c !! t = Some tk -> length (t_future tk) <= results_written c t.
Definition trying (t : nat) (p : pc) : bool :=
  match p with
  | PTryDo (Some t') | PTrySelect t' => bool_decide (t' = t)
  | _ => false
  end.
Definition rejects_bounded (t : nat) (c : config) : Prop :=
  tally (trying t) (threads c) + rejections c t <= try_submissions c t.

(** [Start] won its compare-and-swap. *)
Definition is_started (e : event) : bool :=
  match e with
  | EvState 0 1 => true
  | _ => false
  end.
Definition started (c : config) : Prop := 0 < tally is_started (log c).

(** The goroutine in [Start] that has not yet spawned a worker; a core
    worker inside its loop. *)
Definition starting (p : pc) : bool :=
  match p with
  | PStartAdd | PStartWake _ => true
  | PStartGo k => (k <=? 0)%Z
  | _ => false
  end.
Definition core_alive (p : pc) : bool :=
  match p with
  | PWorker | PExecute CoreLoop _ | PExecuting CoreLoop _ _
  | PExecuteSend CoreLoop _ _ => true
  | _ => false
  end.

(** Once started, the pool has a core worker in its loop (or is about to),
    unless the queue is closed and drained. *)
Definition served (c : config) : Prop :=
  started c ->
  0 < tally starting (threads c) \/ 0 < tally core_alive (threads c)
  \/ (closed (pool c) = true /\ taskQueue (pool c) = []).

(** The goroutines counted by [p.expanded]. *)
Definition in_expansion (p : pc) : bool :=
  is_expanded p || spawning p || rolling_back p.

(** Fewer than 2^31 goroutines were started in the run, so that the
    [int32] counter cannot wrap around. *)
Definition int32_goroutines (c : config) : Prop :=
  (Z.of_nat (length (threads c)) < 2 ^ 31)%Z.

Definition expansion_counted (c : config) : Prop :=
  int32_goroutines c ->
  expanded (pool c) = Z.of_nat (tally in_expansion (threads c)) /\
  (Z.of_nat (live_expanded c + tally spawning (threads c))
   <= ExpandableLimit (opt (pool c)))%Z.

Definition spawns_accounted (c : config) : Prop :=
  tally is_spawn (log c) = live_expanded c + tally is_retire (log c).

(** Only allocated tasks are submitted. *)
Definition submitted_valid (c : config) : Prop :=
  forall t, 0 < submissions c t -> t < length (heap c).

(** The lifecycle flag and the history of its transitions. *)
Definition lifecycle (c : config) : Prop :=
  (state (pool c) = 0%Z /\ transitions (log c) = []) \/
  (state (pool c) = 1%Z /\ transitions (log c) = [(0, 1)%Z]) \/
  (state (pool c) = 2%Z /\ transitions (log c) = [(0, 2)%Z]) \/
  (state (pool c) = 2%Z /\ transitions (log c) = [(1, 2)%Z; (0, 1)%Z]).

(** [r] is the cancellation error of the pool scope or of the scope of
    [t]. *)
Definition cancel_sound (c : config) (t : nat) (r : TaskResult) : Prop :=
  exists e, r = cancel_result e /\
    (p_ctx (pool c) = Some e \/
     exists x, task_ctx c t = Some x /\ ctx_err c x = Some e).

Definition cancel_errors (c : config) : Prop :=
  (forall t r, In (EvResult ByCancel t r) (log c) -> cancel_sound c t r) /\
  (forall i t r, threads c !! i = Some (PPushSend t r) \/
                 threads c !! i = Some (PTrySend t r) -> cancel_sound c t r).

(** ** Example runs *)

(** A pool with one core worker and no expansion, and an executor. *)
Definition one_worker : Option := mkOption false 1 0 0.
Definition seven : executor := fun _ => (ival 7, None).

(** [Execute] of task 0 is accepted by the queue; [TryExecute] of task 1
    finds the queue full and returns false; the worker then runs task 0. *)
Definition rejected_run : list label :=
  [LNewTask (Some PoolCtx) (Some seven); LCall (CDo (Some 0));
   LStep 2 ChRun; LStep 2 ChSend;
   LNewTask (Some PoolCtx) (Some seven); LCall (CTryDo (Some 1));
   LStep 3 ChRun; LStep 3 ChDefault;
   LStep 1 ChRun; LStep 1 ChRun; LReturn 1; LStep 1 ChRun].


(** How often a cancellation branch of [push] or [TryDo] was taken for
    [t]: the error was written, or is about to be. *)
Definition cancel_path (t : nat) (c : config) : nat :=
  cancel_results c t + tally (bypassing t) (threads c).

(** The program point at which [push] ([TryDo] if [viaTry]) writes [r] to
    the future of [t], and the one at which it has returned. *)
Definition bypass_send (viaTry : bool) (t : nat) (r : TaskResult) : pc :=
  if viaTry then PTrySend t r else PPushSend t r.
Definition bypass_ret (viaTry : bool) : pc :=
  PRet (if viaTry then Some false else None).
Definition bypass_select (viaTry : bool) (t : nat) : pc :=
  if viaTry then PTrySelect t else PPush t.

(** A goroutine that has taken a cancellation branch stays before its
    write until it has written, and has then returned. *)
Definition bypass_tracked (viaTry : bool) (i t : nat) (r : TaskResult)
  (c : config) : Prop :=
  threads c !! i = Some (bypass_send viaTry t r) \/
  (threads c !! i = Some (bypass_ret viaTry) /\
   In (EvResult ByCancel t r) (log c)).

(** [ExecuteWithCtx] of task 0 with a scope of the caller is accepted by
    the queue; the scope is then cancelled, and the worker runs the task. *)
Definition queued_run : list label :=
  [LNewTask (Some (UserCtx 0)) (Some seven); LCall (CDo (Some 0));
   LStep 2 ChRun; LStep 2 ChSend].
Definition cancelled_late_run : list label :=
  [LCancelScope 0 Canceled; LStep 1 ChRun; LStep 1 ChRun; LReturn 1;
   LStep 1 ChRun].

(** The scope is cancelled before [ExecuteWithCtx]; [push] takes the branch
    of the task scope and then writes the error. *)
Definition cancelled_early_run : list label :=
  [LNewTask (Some (UserCtx 0)) (Some seven); LCancelScope 0 Canceled;
   LCall (CDo (Some 0)); LStep 2 ChRun; LStep 2 ChTaskDone].

(** A pool with one core worker that may expand by one worker; [Execute]
    of task 0 fills the queue, [Execute] of task 1 finds it full and spawns
    the expanded worker. *)
Definition expandable : Option := mkOption false 1 1 0.
Definition expanding_run : list label :=
  [LNewTask (Some PoolCtx) (Some seven); LCall (CDo (Some 0));
   LStep 2 ChRun; LStep 2 ChSend;
   LNewTask (Some PoolCtx) (Some seven); LCall (CDo (Some 1));
   LStep 3 ChRun; LStep 3 ChDefault; LStep 3 ChRun; LStep 3 ChRun;
   LStep 3 ChRun].

(** [Stop] runs to completion on the pool with one worker; then [Execute]
    of task 0 reaches the [select] of [push]. *)
Definition stop_run : list label :=
  [LCall CStop; LStep 2 ChRun; LStep 2 ChRun; LStep 2 ChRun;
   LStep 1 ChRun; LStep 1 ChRun; LStep 2 ChRun].
Definition late_run : list label :=
  [LNewTask (Some PoolCtx) (Some seven); LCall (CDo (Some 0)); LStep 3 ChRun].

(** ** Bounds of the expansion counter *)

(** [P] holds of every configuration of the run from which a step is
    taken. *)
Fixpoint along (P : config -> Prop) (c : config) (ls : list label) : Prop :=
  match ls with
  | [] => True
  | l :: ls' =>
      P c /\
      match step c l with
      | Some c' => along P c' ls'
      | None => True
      end
  end.

(** So few goroutines are in [Do] between an increment of [p.expanded]
    that exceeded the limit and its rollback that the [int32] counter does
    not wrap around. *)
Definition rollbacks_fit (c : config) : Prop :=
  (Z.of_nat (tally rolling_back (threads c))
   < 2 ^ 31 - 1 - ExpandableLimit (opt (pool c)))%Z.

(** A goroutine inside [Do], before [push]. *)
Definition in_Do (p : pc) : bool :=
  match p with
  | PDo _ | PDoSelect _ | PDoAdd _ | PDoWgAdd _ | PDoWake _ _ | PDoGo _
  | PDoRollback _ => true
  | _ => false
  end.

(** No goroutine is in [Do] and there is no expanded worker. *)
Definition quiet (c : config) : Prop :=
  tally in_Do (threads c) = 0 /\ tally is_expanded (threads c) = 0.

(** [p.expanded] counts the goroutines of [in_expansion], and the expanded
    workers, spawned or about to be, are within the limit. *)
Definition expansion_exact (c : config) : Prop :=
  expanded (pool c) = Z.of_nat (tally in_expansion (threads c)) /\
  (Z.of_nat (live_expanded c + tally spawning (threads c))
   <= ExpandableLimit (opt (pool c)))%Z.

(** [m] goroutines enter [Do] with task [t] one after the other, the first
    as goroutine [k], find the queue full, increment [p.expanded] beyond
    the limit and stop before the rollback. *)
Fixpoint park_labels (t k m : nat) : list label :=
  match m with
  | O => []
  | S m' =>
      LCall (CDo (Some t)) :: LStep k ChRun :: LStep k ChDefault
      :: LStep k ChRun :: park_labels t (S k) m'
  end.

(** One more goroutine enters [Do] with task [t], as goroutine [k], finds
    the queue full, increments [p.expanded] and spawns an expanded
    worker. *)
Definition expand_labels (t k : nat) : list label :=
  [LCall (CDo (Some t)); LStep k ChRun; LStep k ChDefault; LStep k ChRun;
   LStep k ChRun; LStep k ChRun].

(** After [expanding_run], 2^31 - 2 submissions of task 1 are parked before
    their rollback, and one more spawns a second expanded worker. *)
Definition flood_run : list label :=
  expanding_run ++ park_labels 1 5 (Z.to_nat (2 ^ 31 - 2))
  ++ expand_labels 1 (5 + Z.to_nat (2 ^ 31 - 2)).

(** ** Further invariants *)

(** A sum of integer weights over a list. *)
Fixpoint weigh {A} (f : A -> Z) (l : list A) : Z :=
  match l with
  | [] => 0%Z
  | x :: l' => (f x + weigh f l')%Z
  end.

(** What goroutine [p] accounts for in the wait group, [n] being the
    configured number of workers: [Start] for the workers it has added but
    not yet spawned, [Do] for the expanded worker it has added but not yet
    spawned, a worker for itself until its [wg.Done()]. *)
Definition wg_share (n : Z) (p : pc) : Z :=
  match p with
  | PStartWake _ => n
  | PStartGo k => (n - k)%Z
  | PDoWake _ _ | PDoGo _ => 1%Z
  | PWorker | PWorkerDone | PExecute _ _ | PExecuting _ _ _
  | PExecuteSend _ _ _
  | PExpStart | PExpSelect _ | PExpStopTimer _ _ | PExpReset | PExpDone => 1%Z
  | _ => 0%Z
  end.

(** The loop counter of [Start] is out of its range. *)
Definition bad_start (n : Z) (p : pc) : bool :=
  match p with
  | PStartGo k => negb ((0 <=? k)%Z && (k <=? n)%Z)
  | _ => false
  end.

(** A worker that has not yet called [wg.Done()], or that [Do] has added
    to the wait group and is about to spawn. *)
Definition awaited (p : pc) : bool :=
  match p with
  | PDoWake _ _ | PDoGo _
  | PWorker | PWorkerDone | PExecute _ _ | PExecuting _ _ _
  | PExecuteSend _ _ _
  | PExpStart | PExpSelect _ | PExpStopTimer _ _ | PExpReset | PExpDone => true
  | _ => false
  end.

(** The core workers [p] stands for: [Start] for those it has still to
    spawn, a core worker in its loop for itself. *)
Definition core_share (n : Z) (p : pc) : Z :=
  match p with
  | PStartAdd | PStartWake _ => n
  | PStartGo k => (n - k)%Z
  | PWorker | PExecute CoreLoop _ | PExecuting CoreLoop _ _
  | PExecuteSend CoreLoop _ _ => 1%Z
  | _ => 0%Z
  end.
Definition in_Start (p : pc) : bool :=
  match p with
  | PStartAdd | PStartWake _ | PStartGo _ => true
  | _ => false
  end.
Definition worker_done (p : pc) : bool :=
  match p with
  | PWorkerDone | PWorkerWake _ => true
  | _ => false
  end.

(** The counter of the wait group cannot overflow: the configured workers
    and all goroutines started so far are fewer than 2^31. *)
Definition wg_fits (c : config) : Prop :=
  (NumberWorker (opt (pool c)) + Z.of_nat (length (threads c)) < 2 ^ 31)%Z.

(** At most one goroutine is in [Start] past its compare-and-swap, and none
    while the flag is 0. *)
Definition start_unique (c : config) : Prop :=
  tally in_Start (threads c) <= 1 /\
  (state (pool c) = 0%Z -> tally in_Start (threads c) = 0).

(** What a goroutine can account for in the wait group at most. *)
Definition wg_cap (n : Z) (p : pc) : Z := if in_Start p then n else 1%Z.

(** As long as it cannot overflow, the counter of the wait group is the
    sum of what the goroutines account for. *)
Definition waitgroup_counted (c : config) : Prop :=
  tally (bad_start (NumberWorker (opt (pool c)))) (threads c) = 0 /\
  start_unique c /\
  (wg_fits c ->
   wg (pool c) = weigh (wg_share (NumberWorker (opt (pool c)))) (threads c)).

(** A goroutine inside [wg.Wait()]; asleep there; in the second half of a
    [wg.Add] or [wg.Done]. *)
Definition in_Wait (p : pc) : bool :=
  match p with
  | PStopWait | PStopSleep | PStopWoken => true
  | _ => false
  end.
Definition sleeping (p : pc) : bool :=
  match p with
  | PStopSleep => true
  | _ => false
  end.
Definition waking (p : pc) : bool :=
  match p with
  | PStartWake _ | PDoWake _ _ | PWorkerWake _ | PExpWake _ => true
  | _ => false
  end.

(** Only the [Stop] that closed the queue calls [wg.Wait()]; the waiters
    and the releases of the semaphore are the goroutines asleep in it; and
    while the queue is open, nobody waits and nobody wakes. *)
Definition waited_once (c : config) : Prop :=
  tally in_Wait (threads c) <= (if closed (pool c) then 1 else 0) /\
  tally sleeping (threads c) = waiters (pool c) + sema (pool c) /\
  (closed (pool c) = false -> tally waking (threads c) = 0).

(** While the queue is open, the core workers are those of the one
    successful [Start], and none has left its loop. *)
Definition core_counted (c : config) : Prop :=
  closed (pool c) = false ->
  weigh (core_share (NumberWorker (opt (pool c)))) (threads c)
  = (NumberWorker (opt (pool c)) * Z.of_nat (tally is_started (log c)))%Z /\
  tally worker_done (threads c) = 0 /\
  tally (bad_start (NumberWorker (opt (pool c)))) (threads c) = 0.

(** [Stop] between its compare-and-swap and [close(p.taskQueue)]. *)
Definition stopping (p : pc) : bool :=
  match p with
  | PStopCancel | PStopClose => true
  | _ => false
  end.
Definition at_close (p : pc) : bool :=
  match p with
  | PStopClose => true
  | _ => false
  end.

(** The queue is closed by the one [Stop] that moved the flag to 2, after
    it cancelled the pool scope. *)
Definition closed_once (c : config) : Prop :=
  tally stopping (threads c) + (if closed (pool c) then 1 else 0)
  = (if (state (pool c) =? 2)%Z then 1 else 0) /\
  (closed (pool c) = true \/ 0 < tally at_close (threads c) ->
   p_ctx (pool c) <> None).

(** Goroutine [p] is past the binding of the scope of [t] in [Do] or
    [TryDo]. *)
Definition selecting (t : nat) (p : pc) : bool :=
  match p with
  | PDoSelect t' | PDoAdd t' | PDoWgAdd t' | PDoWake t' _ | PDoGo t'
  | PDoRollback t' | PPush t' | PTrySelect t' => bool_decide (t' = t)
  | _ => false
  end.
Definition ctx_bound (c : config) : Prop :=
  forall i p t, threads c !! i = Some p -> selecting t p = true ->
    task_ctx c t <> None.

(** The buffers never hold more than their capacity. *)
Definition buffers_bounded (c : config) : Prop :=
  length (taskQueue (pool c)) <= queue_cap /\
  forall t tk, heap c !! t = Some tk -> length (t_future tk) <= future_cap.

(** The counters stay in the range of their types. *)
Definition counters_in_range (c : config) : Prop :=
  (- 2 ^ 31 <= expanded (pool c) < 2 ^ 31)%Z /\
  (state (pool c) = 0 \/ state (pool c) = 1 \/ state (pool c) = 2)%Z.

(** [Start] wins its compare-and-swap at most once, and only from 0. *)
Definition start_counted (c : config) : Prop :=
  (state (pool c) = 0%Z -> tally is_started (log c) = 0) /\
  tally is_started (log c) <= 1.

(** The labels with which [Stop], as goroutine [s], runs up to its
    [wg.Wait()], and with which the idle core workers [1..n] each see the
    closed queue and return. *)
Definition Stop_labels (s : nat) : list label :=
  [LStep s ChRun; LStep s ChRun; LStep s ChRun].
Fixpoint drain_labels (first n : nat) : list label :=
  match n with
  | O => []
  | S n' => LStep first ChRun :: LStep first ChRun :: drain_labels (S first) n'
  end.

(** The head of a worker loop, and the labels of one iteration of worker
    [i] that finds a task in the queue: receive, ([stopTimer],) the body of
    [Execute], the send on the future(, [timer.Reset]). *)
Definition loop_head (l : loop) (fired : bool) : pc :=
  match l with
  | CoreLoop => PWorker
  | ExpandedLoop => PExpSelect fired
  end.
Definition iteration_labels (l : loop) (i : nat) : list label :=
  match l with
  | CoreLoop => [LStep i ChRun; LStep i ChRun; LStep i ChRun]
  | ExpandedLoop =>
      [LStep i ChRecv; LStep i ChRun; LStep i ChRun; LStep i ChRun;
       LStep i ChRun]
  end.

(** Goroutine [i] cannot take any step. *)
Definition blocked (c : config) (i : nat) : Prop :=
  forall ch, step c (LStep i ch) = None.

(** ** retry: attempt-limiting backoff *)

Module retry.

(** Modelled from the spec: the backoff strategies of package [retry]
    (only its test is in the repository): a strategy exposes
    [NextDelayMillis(attemptIndex)]; the fixed-delay strategy and the
    attempt-limiting decorator that wraps another strategy. *)
Inductive Backoff :=
| fixedBackoff (delayMillis : Z)
| attemptLimitingBackoff (inner : Backoff) (maxAttempts : Z).

Inductive construction_error := ErrInvalidParameter.

(** Modelled from the spec: [NewFixedBackoff], missing from the repository;
    a strategy returns a non-negative delay. *)
Definition NewFixedBackoff (delayMillis : Z) : Backoff + construction_error :=
  if (delayMillis <? 0)%Z then inr ErrInvalidParameter
  else inl (fixedBackoff delayMillis).

(** Modelled from the spec: [NewAttemptLimitingBackoff], missing from the
    repository; it rejects a nil inner strategy and a non-positive attempt
    limit at construction time. *)
Definition NewAttemptLimitingBackoff (inner : option Backoff) (maxAttempts : Z)
  : Backoff + construction_error :=
  match inner with
  | None => inr ErrInvalidParameter
  | Some b =>
      if (maxAttempts <=? 0)%Z then inr ErrInvalidParameter
      else inl (attemptLimitingBackoff b maxAttempts)
  end.

(** Modelled from the spec: [NextDelayMillis], missing from the repository;
    the decorator forces the sentinel (-1 in the test) after [maxAttempts]
    attempts and otherwise asks the wrapped strategy. *)
Fixpoint NextDelayMillis (b : Backoff) (attempt : Z) : Z :=
  match b with
  | fixedBackoff d => d
  | attemptLimitingBackoff inner n =>
      if (attempt >=? n)%Z then (-1)%Z else NextDelayMillis inner attempt
  end.

End retry.

(** * Proofs *)

(** ** Counting *)

Section Tally.
Context {A : Type} (f : A -> bool).

Lemma tally_app (l1 l2 : list A) :
  tally f (l1 ++ l2) = tally f l1 + tally f l2.
Proof. induction l1 as [|x l1 IH]; simpl; [done | rewrite IH; lia]. Qed.

Lemma tally_insert (l : list A) i x y :
  l !! i = Some x ->
  tally f (<[i := y]> l) + (if f x then 1 else 0)
  = tally f l + (if f y then 1 else 0).
Proof.
  revert i. induction l as [|z l IH]; intros [|i] H; simpl in *; try done.
  - injection H as ->. lia.
  - specialize (IH i H). lia.
Qed.

Lemma tally_lookup (l : list A) i x :
  l !! i = Some x -> f x = true -> 0 < tally f l.
Proof.
  revert i. induction l as [|z l IH]; intros [|i] H Hf; simpl in *; try done.
  - injection H as ->. rewrite Hf. lia.
  - specialize (IH i H Hf). lia.
Qed.

Lemma tally_pos (l : list A) :
  0 < tally f l -> exists i x, l !! i = Some x /\ f x = true.
Proof.
  induction l as [|z l IH]; simpl; [lia |].
  destruct (f z) eqn:Hz.
  - intros _. by exists 0, z.
  - intros H. destruct IH as (i & x & Hi & Hx); [lia |]. by exists (S i), x.
Qed.
End Tally.

Lemma tally_none {A} (f : A -> bool) (l : list A) i x :
  tally f l = 0 -> l !! i = Some x -> f x = false.
Proof.
  intros H0 Hi. destruct (f x) eqn:Hf; [| done].
  pose proof (tally_lookup f l i x Hi Hf). lia.
Qed.

(** ** Runs *)

Lemma run_app c ls1 ls2 :
  run c (ls1 ++ ls2) = c' ← run c ls1; run c' ls2.
Proof.
  revert c. induction ls1 as [|l ls1 IH]; intros c; simpl; [done |].
  destruct (step c l); simpl; [apply IH | done].
Qed.

Lemma run_invariant (I : config -> Prop) :
  (forall c l c', I c -> step c l = Some c' -> I c') ->
  forall ls c c', I c -> run c ls = Some c' -> I c'.
Proof.
  intros Hstep ls. induction ls as [|l ls IH]; intros c c' Hc Hrun; simpl in *.
  - by injection Hrun as <-.
  - destruct (step c l) as [c1|] eqn:Hs; [| done]. eauto.
Qed.

Lemma solo_run fuel i c : exists ls, run c ls = Some (solo fuel i c).
Proof.
  revert c. induction fuel as [|fuel IH]; intros c; simpl.
  - by exists [].
  - destruct (step c (LStep i ChRun)) as [c1|] eqn:Hs.
    + destruct (IH c1) as [ls Hls]. exists (LStep i ChRun :: ls). simpl.
      by rewrite Hs.
    + by exists [].
Qed.

Lemma NewPool_run numCPU parent o :
  exists ls, run (fresh numCPU parent o) ls = Some (NewPool numCPU parent o).
Proof.
  unfold NewPool.
  destruct (DisableAutoStart (opt (pool (fresh numCPU parent o)))).
  - by exists [].
  - destruct (solo_run
                (Z.to_nat (NumberWorker (opt (pool (fresh numCPU parent o)))) + 3)
                0 (emit (EvCall CStart) (spawn PStart (fresh numCPU parent o))))
      as [ls Hls].
    exists (LCall CStart :: ls). exact Hls.
Qed.

(** ** Option.normalize *)

(** C7: [normalize] replaces a zero or negative number of workers by the
    host parallelism, a negative expansion limit by 0 and a zero or negative
    idle lifetime by one minute; positive values (and an expansion limit of
    0) are kept, as is the auto-start switch. *)
Theorem normalize_defaults (numCPU : Z) (o : Option) :
  ((NumberWorker o <= 0)%Z -> NumberWorker (normalize numCPU o) = numCPU) /\
  ((0 < NumberWorker o)%Z ->
     NumberWorker (normalize numCPU o) = NumberWorker o) /\
  ((ExpandableLimit o < 0)%Z -> ExpandableLimit (normalize numCPU o) = 0%Z) /\
  ((0 <= ExpandableLimit o)%Z ->
     ExpandableLimit (normalize numCPU o) = ExpandableLimit o) /\
  ((ExpandedLifetime o <= 0)%Z ->
     ExpandedLifetime (normalize numCPU o) = Minute) /\
  ((0 < ExpandedLifetime o)%Z ->
     ExpandedLifetime (normalize numCPU o) = ExpandedLifetime o) /\
  DisableAutoStart (normalize numCPU o) = DisableAutoStart o.
Proof.
  unfold normalize.
  destruct (Z.leb_spec (NumberWorker o) 0) as [Hw|Hw]; simpl;
    destruct (Z.ltb_spec (ExpandableLimit o) 0) as [Hl|Hl]; simpl;
    destruct (Z.leb_spec (ExpandedLifetime o) 0) as [Ht|Ht]; simpl;
    repeat split; intros; try reflexivity; lia.
Qed.

Lemma normalize_defaults_witness :
  normalize 8 (mkOption false 0 (-1) 0) = mkOption false 8 0 Minute /\
  NumberWorker (normalize 8 (mkOption true 3 2 5)) = 3%Z /\
  ExpandableLimit (normalize 8 (mkOption true 3 2 5)) = 2%Z /\
  ExpandedLifetime (normalize 8 (mkOption true 3 2 5)) = 5%Z.
Proof.
  destruct (normalize_defaults 8 (mkOption true 3 2 5))
    as (_ & Hw & _ & Hl & _ & Ht & _).
  split; [reflexivity |].
  split; [apply Hw; simpl; lia |].
  split; [apply Hl; simpl; lia | apply Ht; simpl; lia].
Defined.

Lemma normalize_limit_nonneg numCPU o :
  (0 <= ExpandableLimit (normalize numCPU o))%Z.
Proof.
  unfold normalize.
  destruct (Z.leb_spec (NumberWorker o) 0); simpl;
    destruct (Z.ltb_spec (ExpandableLimit o) 0); simpl;
    destruct (Z.leb_spec (ExpandedLifetime o) 0); simpl; lia.
Qed.

Lemma normalize_workers_pos numCPU o :
  (0 < numCPU)%Z -> (0 < NumberWorker (normalize numCPU o))%Z.
Proof.
  intros Hn. unfold normalize.
  destruct (Z.leb_spec (NumberWorker o) 0); simpl;
    destruct (Z.ltb_spec (ExpandableLimit o) 0); simpl;
    destruct (Z.leb_spec (ExpandedLifetime o) 0); simpl; lia.
Qed.

(** ** retry *)

(** C9: the attempt-limiting backoff rejects a nil strategy, whatever the
    limit, and every limit that is not positive, when it is constructed, in
    particular [(nil, 1)] and [(strategy, 0)]; for any strategy and any
    positive limit it is constructed, answers like the wrapped strategy
    below the limit and with a negative value from the limit on.  A fixed
    delay of 123ms limited to 3 attempts gives 123 for the attempts 0, 1
    and 2 and a negative value from attempt 3 on. *)
Theorem attempt_limiting_backoff :
  (forall n, retry.NewAttemptLimitingBackoff None n
             = inr retry.ErrInvalidParameter) /\
  (forall s n, (n <= 0)%Z ->
     retry.NewAttemptLimitingBackoff (Some s) n
     = inr retry.ErrInvalidParameter) /\
  (forall s n, (0 < n)%Z ->
     exists b,
       retry.NewAttemptLimitingBackoff (Some s) n = inl b /\
       (forall i, (i < n)%Z ->
          retry.NextDelayMillis b i = retry.NextDelayMillis s i) /\
       (forall i, (n <= i)%Z -> (retry.NextDelayMillis b i < 0)%Z)) /\
  retry.NewAttemptLimitingBackoff None 1 = inr retry.ErrInvalidParameter /\
  (forall s, retry.NewAttemptLimitingBackoff (Some s) 0
             = inr retry.ErrInvalidParameter) /\
  exists f b,
    retry.NewFixedBackoff 123 = inl f /\
    retry.NewAttemptLimitingBackoff (Some f) 3 = inl b /\
    (forall i, (0 <= i < 3)%Z -> retry.NextDelayMillis b i = 123%Z) /\
    (forall i, (3 <= i)%Z -> (retry.NextDelayMillis b i < 0)%Z).
Proof.
  split; [reflexivity |].
  split.
  { intros s n Hn. unfold retry.NewAttemptLimitingBackoff.
    by destruct (Z.leb_spec n 0); [| lia]. }
  split.
  { intros s n Hn. exists (retry.attemptLimitingBackoff s n).
    unfold retry.NewAttemptLimitingBackoff.
    destruct (Z.leb_spec n 0); [lia |].
    split; [reflexivity |].
    split; intros i Hi; simpl; destruct (Z.geb_spec i n); lia. }
  split; [reflexivity |]. split; [reflexivity |].
  exists (retry.fixedBackoff 123),
    (retry.attemptLimitingBackoff (retry.fixedBackoff 123) 3).
  split; [reflexivity |]. split; [reflexivity |].
  split; intros i Hi; simpl.
  - destruct (Z.geb_spec i 3); [lia | reflexivity].
  - destruct (Z.geb_spec i 3); lia.
Qed.

(** ** Single steps *)

Lemma lookup_spawned (ts : list pc) p : (ts ++ [p]) !! length ts = Some p.
Proof. by apply list_lookup_middle. Qed.

Lemma insert_spawned (ts : list pc) p q :
  <[length ts := q]> (ts ++ [p]) = ts ++ [q].
Proof.
  rewrite insert_app_r_alt; [| lia]. by rewrite Nat.sub_diag.
Qed.

Lemma step_at c i p ch :
  panicked c = false -> threads c !! i = Some p ->
  step c (LStep i ch)
  = match step_pc i p ch c with
    | Next c' => Some c'
    | Panics => Some (panic c)
    | Blocked => None
    end.
Proof. intros Hlive Hi. unfold step. by rewrite Hlive, Hi. Qed.

Lemma goto_goto i p q c : goto i q (goto i p c) = goto i q c.
Proof. unfold goto, set_threads. simpl. by rewrite list_insert_insert_eq. Qed.

Lemma lookup_goto i p c :
  i < length (threads c) -> threads (goto i p c) !! i = Some p.
Proof. intros H. simpl. by apply list_lookup_insert_eq. Qed.

Lemma goto_same i p c : threads c !! i = Some p -> goto i p c = c.
Proof.
  intros Hi. unfold goto, set_threads. rewrite list_insert_id by done.
  by destruct c.
Qed.

(** ** NewPool *)

Lemma wrap32_id z : (- 2 ^ 31 <= z < 2 ^ 31)%Z -> wrap32 z = z.
Proof. intros H. unfold wrap32. rewrite Z.mod_small; lia. Qed.

(** [wg.Add(delta)] returns, with the counter moved by [delta], when the
    new counter fits an [int32], is not negative, and either nobody waits
    or the counter stays positive without having been at zero. *)
Lemma wg_Add_returns delta c :
  (- 2 ^ 31 <= delta < 2 ^ 31)%Z ->
  (0 <= wg (pool c) + delta < 2 ^ 31)%Z ->
  waiters (pool c) = 0 \/
  ((0 < wg (pool c) + delta)%Z /\ ((delta <= 0)%Z \/ wg (pool c) <> 0%Z)) ->
  wg_Add delta c = AddReturns (upd_pool (set_wg (wg (pool c) + delta)) c).
Proof.
  intros Hd Hv Hw. unfold wg_Add. cbv zeta.
  rewrite (wrap32_id (wg (pool c) + delta)), (wrap32_id delta) by lia.
  destruct (Z.ltb_spec (wg (pool c) + delta) 0); [lia |].
  destruct Hw as [-> | [Hpos Hw]]; simpl.
  - by rewrite orb_true_r.
  - destruct (Z.ltb_spec 0 (wg (pool c) + delta)); [| lia]. simpl.
    destruct Hw as [Hw | Hw].
    + destruct (Z.ltb_spec 0 delta); [lia |]. by rewrite andb_false_r.
    + destruct (Z.eqb_spec (wg (pool c) + delta) delta); [lia |].
      by rewrite andb_false_r.
Qed.

(** The [wg.Done()] that brings the counter to zero while [w] goroutines
    wait goes on to wake them. *)
Lemma wg_Add_wakes c w :
  wg (pool c) = 1%Z -> waiters (pool c) = S w ->
  wg_Add (-1) c = AddWakes (S w) (upd_pool (set_wg 0) c).
Proof. intros Hv Hw. unfold wg_Add. by rewrite Hv, Hw. Qed.

Lemma solo_returned fuel i c r :
  threads c !! i = Some (PRet r) -> solo fuel i c = c.
Proof.
  intros Hi. destruct fuel as [|fuel]; [done |]. simpl.
  unfold step. rewrite Hi. simpl. by destruct (panicked c).
Qed.

(** The loop of [Start] spawns the remaining workers and returns. *)
Lemma solo_StartGo n : forall k c fuel,
  panicked c = false -> threads c !! 0 = Some (PStartGo k) ->
  NumberWorker (opt (pool c)) = (k + Z.of_nat n)%Z -> n < fuel ->
  solo fuel 0 c
  = goto 0 (PRet None) (set_threads (threads c ++ replicate n PWorker) c).
Proof.
  induction n as [|n IH]; intros k c fuel Hlive Hpc HN Hfuel;
    (destruct fuel as [|fuel]; [lia |]); simpl solo;
    rewrite (step_at c 0 _ _ Hlive Hpc); simpl.
  - destruct (Z.ltb_spec k (NumberWorker (opt (pool c)))); [lia |].
    rewrite solo_returned with (r := None).
    + unfold goto, set_threads. simpl. by rewrite app_nil_r.
    + apply lookup_goto. by eapply lookup_lt_Some.
  - destruct (Z.ltb_spec k (NumberWorker (opt (pool c)))); [| lia].
    assert (H0 : 0 < length (threads c)) by (by eapply lookup_lt_Some).
    rewrite (IH (k + 1)%Z); simpl; try done; try lia.
    + unfold goto, set_threads, spawn. simpl.
      rewrite !insert_app_l by (rewrite ?length_insert, ?length_app; lia).
      rewrite list_insert_insert_eq.
      by rewrite <- !app_assoc.
    + rewrite insert_app_l by done.
      apply lookup_app_l_Some. by apply list_lookup_insert_eq.
Qed.

(** [NewPool] with auto-start and a number of workers that fits the
    counter of the wait group returns a running pool: the flag is 1, the
    wait group counts the workers, and there is one core worker per
    configured worker, each at the head of its loop. *)
Lemma NewPool_autostart numCPU parent o :
  (0 < numCPU)%Z -> DisableAutoStart o = false ->
  (NumberWorker (normalize numCPU o) < 2 ^ 31)%Z ->
  let n := NumberWorker (normalize numCPU o) in
  NewPool numCPU parent o
  = {| pool := {| p_ctx := parent; opt := normalize numCPU o; wg := n;
                  waiters := 0; sema := 0;
                  taskQueue := []; closed := false; expanded := 0;
                  state := 1 |};
       heap := []; scopes := ∅;
       threads := PRet None :: replicate (Z.to_nat n) PWorker;
       panicked := false;
       log := [EvState 0 1; EvCall CStart] |}.
Proof.
  intros Hcpu Hauto Hint n.
  pose proof (normalize_workers_pos numCPU o Hcpu) as Hn. fold n in Hn, Hint.
  unfold NewPool. simpl.
  assert (Hd : DisableAutoStart (normalize numCPU o) = false).
  { unfold normalize. rewrite <- Hauto.
    destruct (NumberWorker o <=? 0)%Z; simpl;
      destruct (ExpandableLimit o <? 0)%Z; simpl;
      by destruct (ExpandedLifetime o <=? 0)%Z. }
  rewrite Hd. fold n.
  replace (Z.to_nat n + 3) with (S (S (Z.to_nat n + 1))) by lia.
  cbn [solo].
  erewrite step_at; [| reflexivity | reflexivity]. cbn.
  unfold wg_Add. cbn. fold n. rewrite (wrap32_id (0 + n)) by lia.
  destruct (Z.ltb_spec (0 + n) 0); [lia |].
  destruct (Z.ltb_spec 0 (0 + n)); [| lia]. cbn.
  rewrite (solo_StartGo (Z.to_nat n) 0); cbn; try done; lia.
Qed.

(** ** Task.Execute and nil tasks *)

(** C8: [Execute] on a task without executor computes the result (nil, nil)
    without calling anything, and writes it to the future as soon as the
    future has room. *)
Theorem Execute_nil_executor c i l t tk
  (Hlive : panicked c = false)
  (Hpc : threads c !! i = Some (PExecute l t))
  (Htask : heap c !! t = Some tk)
  (Hnil : t_executor tk = None) :
  step c (LStep i ChRun)
  = Some (goto i (PExecuteSend l t {| Result := inil; Err := None |}) c) /\
  (t_future tk = [] ->
   exists c',
     run c [LStep i ChRun; LStep i ChRun] = Some c' /\
     heap c' !! t = Some (set_future [{| Result := inil; Err := None |}] tk) /\
     log c' = EvResult ByExecute t {| Result := inil; Err := None |} :: log c /\
     invocations c' t = invocations c t /\
     panicked c' = false).
Proof.
  assert (Hstep : step c (LStep i ChRun)
    = Some (goto i (PExecuteSend l t {| Result := inil; Err := None |}) c)).
  { unfold step. rewrite Hlive, Hpc. simpl. by rewrite Htask, Hnil. }
  split; [exact Hstep |]. intros Hroom.
  assert (Hi : i < length (threads c)) by (by eapply lookup_lt_Some).
  assert (Ht : t < length (heap c)) by (by eapply lookup_lt_Some).
  eexists. split.
  - simpl run. rewrite Hstep. unfold step. simpl.
    rewrite Hlive, list_lookup_insert_eq by done. simpl.
    unfold future_send. simpl. rewrite Htask, Hroom. simpl. reflexivity.
  - simpl. rewrite list_lookup_insert_eq by (by rewrite ?length_insert).
    repeat split; try done.
Qed.

Lemma Execute_nil_executor_witness :
  exists c',
    run (mkConfig (mkPool None (mkOption false 1 0 Minute) 1 0 0 [] false 0 1)
           [NewTask (Some PoolCtx) None] ∅ [PExecute CoreLoop 0] false [])
      [LStep 0 ChRun; LStep 0 ChRun] = Some c' /\
    t_future <$> heap c' !! 0 = Some [{| Result := inil; Err := None |}].
Proof.
  destruct (Execute_nil_executor
              (mkConfig (mkPool None (mkOption false 1 0 Minute) 1 0 0 [] false 0 1)
                 [NewTask (Some PoolCtx) None] ∅ [PExecute CoreLoop 0] false [])
              0 CoreLoop 0 (NewTask (Some PoolCtx) None)
              eq_refl eq_refl eq_refl eq_refl) as [_ H].
  destruct (H eq_refl) as (c' & Hrun & Hheap & _).
  exists c'. split; [exact Hrun |]. rewrite Hheap. reflexivity.
Defined.

(** C10: [Do(nil)] and [TryDo(nil)] return at once, [TryDo] with false: the
    pool, the heap and the scopes are as before, nothing panics, and the
    goroutine that made the call takes no further step. *)
Theorem nil_task_noop c k
  (Hlive : panicked c = false)
  (Hnil : k = CDo None \/ k = CTryDo None) :
  exists c',
    run c [LCall k; LStep (length (threads c)) ChRun] = Some c' /\
    pool c' = pool c /\ heap c' = heap c /\ scopes c' = scopes c /\
    panicked c' = false /\
    threads c' = threads c ++ [PRet (match k with
                                      | CTryDo _ => Some false
                                      | _ => None
                                      end)] /\
    log c' = EvCall k :: log c /\
    forall ch, step c' (LStep (length (threads c)) ch) = None.
Proof.
  destruct Hnil as [-> | ->]; eexists; (split; [
    simpl run; unfold step at 1; rewrite Hlive; simpl;
    unfold step; simpl; rewrite Hlive, lookup_spawned; simpl; reflexivity |]);
    simpl; rewrite insert_spawned; repeat split; try done;
    intros ch; unfold step; simpl;
    rewrite Hlive, insert_spawned, lookup_spawned; by destruct ch.
Qed.

Lemma nil_task_noop_witness :
  exists c',
    run (NewPool 2 None (mkOption false 0 0 0))
      [LCall (CTryDo None); LStep 3 ChRun] = Some c' /\
    threads c' !! 3 = Some (PRet (Some false)) /\
    pool c' = pool (NewPool 2 None (mkOption false 0 0 0)).
Proof.
  destruct (nil_task_noop (NewPool 2 None (mkOption false 0 0 0))
              (CTryDo None) eq_refl (or_intror eq_refl))
    as (c' & Hrun & Hpool & _ & _ & _ & Hth & _).
  exists c'. split; [exact Hrun |]. split; [by rewrite Hth | exact Hpool].
Defined.
(** ** Case analysis of a step *)

Ltac break_match H :=
  repeat match type of H with
  | context [match ?x with _ => _ end] =>
      lazymatch x with
      | context [match _ with _ => _ end] => fail
      | _ => let E := fresh "E" in destruct x eqn:E
      end
  | Some _ = Some _ => injection H as <-
  | None = Some _ => discriminate H
  | Next _ = Next _ => injection H as <-
  | Blocked = Next _ => discriminate H
  | Panics = Next _ => discriminate H
  | (_, _) = (_, _) => injection H as <- <-
  end.

Ltac step_cases Hs :=
  unfold step in Hs;
  match type of Hs with
  | (if panicked ?c then _ else _) = _ =>
      let Hp := fresh "Hlive" in
      destruct (panicked c) eqn:Hp; [discriminate Hs |]
  end;
  match type of Hs with
  | match ?l with _ => _ end = _ => destruct l
  end;
  repeat match type of Hs with
  | Some _ = Some _ => injection Hs as <-
  | None = Some _ => discriminate Hs
  | match step_pc ?i ?p ?ch ?c with _ => _ end = _ =>
      let Ho := fresh "Hout" in
      destruct (step_pc i p ch c) eqn:Ho; [discriminate Hs | clear Ho |]
  | context [match ?x with _ => _ end] =>
      let E := fresh "E" in destruct x eqn:E
  end.

Ltac pc_cases Ho :=
  match type of Ho with
  | step_pc ?i ?p ?ch ?c = _ =>
      destruct p; destruct ch; simpl in Ho; try discriminate Ho;
      unfold and_then, after_Add, on_done, queue_send, queue_recv,
        future_send, wg_Add, wg_wake, AddInt32_expanded, CompareAndSwap_state,
        bind_ctx in Ho;
      cbv beta zeta in Ho;
      break_match Ho
  end.

(** Every way [step c l = Some c'] can hold, with [c'] spelled out. *)
Ltac all_steps Hs :=
  step_cases Hs;
  try match goal with Ho : step_pc _ _ _ _ = Next _ |- _ => pc_cases Ho end.

(** Replace the tallies over an updated list of goroutines by numbers
    related to the tallies over the old list. *)
Ltac tally_threads :=
  repeat match goal with
  | E : threads ?c !! ?i = Some ?p
    |- context [<[?i := ?q]> (threads ?c ++ [?x])] =>
      rewrite (insert_app_l (threads c) [x] i q)
        by (eapply lookup_lt_Some; exact E)
  | |- context [tally ?f (?l1 ++ ?l2)] => rewrite (tally_app f l1 l2)
  | E : threads ?c !! ?i = Some ?p
    |- context [tally ?f (<[?i := ?q]> (threads ?c))] =>
      let H := fresh "Ht" in
      pose proof (tally_insert f (threads c) i p q E) as H;
      let x := fresh "n" in
      set (x := tally f (<[i := q]> (threads c))) in *; clearbody x
  end.

Ltac count_solve :=
  unfold cancel in *; simpl in *;
  repeat (match goal with
    | k : call |- _ => destruct k as [| |[?|]|[?|]]
    | l : loop |- _ => destruct l
    | E : taskQueue (pool ?c) = _, H : context [taskQueue (pool ?c)] |- _ =>
        rewrite E in H
    | E : taskQueue (pool ?c) = _ |- context [taskQueue (pool ?c)] =>
        rewrite E
    | |- context [match p_ctx ?x with _ => _ end] => destruct (p_ctx x)
    end; simpl in *);
  tally_threads; simpl in *;
  repeat case_bool_decide; simplify_eq; try lia.

Lemma conserved_step t c l c' :
  conserved t c -> step c l = Some c' -> conserved t c'.
Proof.
  intros HI Hs. all_steps Hs;
    unfold conserved, queued, results_written, rejections, submissions in *;
    count_solve.
Qed.

Lemma run_or_cancelled_step t c l c' :
  run_or_cancelled t c -> step c l = Some c' -> run_or_cancelled t c'.
Proof.
  intros HI Hs. all_steps Hs;
    unfold run_or_cancelled, queued, invocations, cancel_results, rejections,
      submissions in *;
    count_solve.
Qed.

Lemma rejects_bounded_step t c l c' :
  rejects_bounded t c -> step c l = Some c' -> rejects_bounded t c'.
Proof.
  intros HI Hs. all_steps Hs;
    unfold rejects_bounded, rejections, try_submissions in *; count_solve.
Qed.

Lemma spawns_accounted_step c l c' :
  spawns_accounted c -> step c l = Some c' -> spawns_accounted c'.
Proof.
  intros HI Hs. all_steps Hs;
    unfold spawns_accounted, live_expanded in *; count_solve.
Qed.

Lemma lifecycle_step c l c' :
  lifecycle c -> step c l = Some c' -> lifecycle c'.
Proof.
  intros HI Hs. all_steps Hs; unfold lifecycle, cancel in *; simpl in *;
    try done;
    repeat match goal with
    | H : (_ =? _)%Z = true |- _ => apply Z.eqb_eq in H
    | H : (_ =? _)%Z = false |- _ => apply Z.eqb_neq in H
    | |- context [match p_ctx ?x with _ => _ end] => destruct (p_ctx x)
    | k : call |- _ => destruct k
    end; simpl in *; try done;
    try (destruct HI as [[? HI]|[[? HI]|[[? HI]|[? HI]]]]; rewrite ?HI;
         first [lia | naive_solver]).

Qed.

Lemma opt_step c l c' : step c l = Some c' -> opt (pool c') = opt (pool c).
Proof.
  intros Hs. all_steps Hs; unfold cancel; simpl; try done;
    by destruct (p_ctx (pool c)).
Qed.

(** What is stored at [t'] after an update of the heap. *)
Ltac heap_lookup H :=
  match type of H with
  | <[?n := ?v]> ?h !! ?t = Some _ =>
      destruct (decide (n = t)) as [-> | ?];
      [ rewrite list_lookup_insert_eq in H by (by eapply lookup_lt_Some);
        injection H as <-
      | rewrite list_lookup_insert_ne in H by done ]
  | (?h ++ [?x]) !! ?t = Some _ =>
      apply lookup_app_Some in H as [H | [_ H]];
      [ | apply list_lookup_singleton_Some in H as [_ <-] ]
  end.

Lemma futures_bounded_step c l c' :
  futures_bounded c -> step c l = Some c' -> futures_bounded c'.
Proof.
  intros HI Hs. all_steps Hs; intros t' tk' Hl;
    unfold futures_bounded, results_written in *; simpl in *;
    try (by apply HI);
    try heap_lookup Hl; simpl;
    repeat case_bool_decide; simplify_eq;
    repeat match goal with
    | H : heap _ !! _ = Some _ |- _ => apply HI in H
    | k : call |- _ => destruct k as [| |[?|]|[?|]]; simpl
    end;
    rewrite ?length_app in *; simpl in *; try lia.
  all: try match goal with E : t_future _ = _ |- _ => rewrite E in *; simpl in *; lia end.

Qed.

Lemma served_step c l c' :
  (0 < NumberWorker (opt (pool c)))%Z ->
  served c -> step c l = Some c' -> served c'.
Proof.
  intros HN HI Hs. unfold served, started in *.
  all_steps Hs; intros Hst; unfold cancel in *; simpl in *;
    repeat match goal with
    | k : call |- _ => destruct k as [| |[?|]|[?|]]; simpl in *
    | l : loop |- _ => destruct l; simpl in *
    | |- context [match p_ctx ?x with _ => _ end] => destruct (p_ctx x); simpl
    | H : (_ <? _)%Z = true |- _ => apply Z.ltb_lt in H
    | H : (_ <? _)%Z = false |- _ => apply Z.ltb_ge in H
    | H : (_ =? _)%Z = true |- _ => apply Z.eqb_eq in H
    end;
    tally_threads; simpl in *;
    repeat match goal with
    | H : context [(?k <=? 0)%Z] |- _ => destruct (Z.leb_spec k 0)
    end;
    try (assert (Hpre : 0 < tally is_started (log c)) by lia;
         destruct (HI Hpre) as [HI' | [HI' | [HI1 HI2]]];
         first [ left; lia | right; left; lia
               | right; right; split; congruence | congruence ]);
    try (first [ left; lia | right; left; lia
               | right; right; split; congruence ]).

Qed.

Lemma tally_le_length {A} (f : A -> bool) (l : list A) : tally f l <= length l.
Proof. induction l as [|x l IH]; simpl; [lia | destruct (f x); lia]. Qed.

Lemma tally_lt_length {A} (f : A -> bool) (l : list A) i x :
  l !! i = Some x -> f x = false -> tally f l < length l.
Proof.
  revert i. induction l as [|z l IH]; intros [|i] H Hf; simpl in *; try done.
  - injection H as ->. rewrite Hf. pose proof (tally_le_length f l). lia.
  - specialize (IH i H Hf). destruct (f z); lia.
Qed.

Lemma tally_in_expansion (l : list pc) :
  tally in_expansion l
  = tally is_expanded l + tally spawning l + tally rolling_back l.
Proof.
  induction l as [|p l IH]; simpl; [done |]. rewrite IH.
  destruct p; simpl; try lia;
    match goal with l : loop |- _ => destruct l end; simpl; lia.
Qed.

Lemma expansion_counted_step c l c' :
  expansion_counted c -> step c l = Some c' -> expansion_counted c'.
Proof.
  intros HI Hs. unfold expansion_counted, int32_goroutines, live_expanded in *.
  all_steps Hs; intros Hlen; unfold cancel in *; simpl in *;
    rewrite ?length_insert, ?length_app in Hlen; simpl in Hlen;
    (assert (Hpre : (Z.of_nat (length (threads c)) < 2 ^ 31)%Z) by lia);
    destruct (HI Hpre) as [HI1 HI2]; clear HI;
    repeat match goal with
    | k : call |- _ => destruct k as [| |[?|]|[?|]]; simpl in *
    | l : loop |- _ => destruct l; simpl in *
    | |- context [match p_ctx ?x with _ => _ end] => destruct (p_ctx x); simpl
    | H : (_ <=? _)%Z = true |- _ => apply Z.leb_le in H
    | H : (_ <=? _)%Z = false |- _ => apply Z.leb_gt in H
    end;
    try match goal with
    | E : threads ?c !! ?i = Some ?p |- _ =>
        pose proof (tally_lt_length in_expansion (threads c) i p E eq_refl)
    end;
    pose proof (tally_le_length in_expansion (threads c));
    pose proof (tally_in_expansion (threads c));
    try rewrite wrap32_id in * by lia;
    tally_threads; simpl in *; try lia.

Qed.

Lemma cancel_sound_step c l c' t r :
  step c l = Some c' -> cancel_sound c t r -> cancel_sound c' t r.
Proof.
  intros Hs (e & -> & Hsound). exists e. split; [done |].
  assert (Hp : forall e', p_ctx (pool c) = Some e' -> p_ctx (pool c') = Some e').
  { intros e' He'. all_steps Hs; unfold cancel; simpl; try done;
      try (by rewrite He'); congruence. }
  assert (Hsc : forall k e', scopes c !! k = Some e' -> scopes c' !! k = Some e').
  { intros k' e' He'. all_steps Hs; simpl; try done.
    rewrite lookup_insert_ne; [done | congruence]. }
  assert (Hx : forall x, task_ctx c t = Some x -> task_ctx c' t = Some x).
  { intros x. unfold task_ctx.
    destruct (heap c !! t) as [tk|] eqn:Htk; [| done]. intros Hctx.
    all_steps Hs; simpl; rewrite ?Htk; try done;
      try (erewrite lookup_app_l_Some by done; done);
      match goal with
      | |- context [<[?n := _]> _ !! _] =>
          destruct (decide (n = t)) as [-> | ?];
          [ rewrite list_lookup_insert_eq by (by eapply lookup_lt_Some);
            simpl; congruence
          | rewrite list_lookup_insert_ne by done; by rewrite Htk ]
      end. }
  destruct Hsound as [H | (x & H1 & H2)]; [left; by apply Hp | right].
  exists x. split; [by apply Hx |].
  destruct x; simpl in *; [by apply Hp | by apply Hsc].
Qed.

(** Where a goroutine at a given program point comes from. *)
Ltac thread_lookup H :=
  repeat match type of H with
  | <[?i := ?q]> ?l !! ?j = Some _ =>
      destruct (decide (i = j)) as [<- | ?];
      [ rewrite list_lookup_insert_eq in H
          by (rewrite ?length_app; eapply Nat.lt_le_trans;
              [eapply lookup_lt_Some; eassumption | lia]);
        injection H as H
      | rewrite list_lookup_insert_ne in H by done ]
  | (?l ++ [?x]) !! ?j = Some _ =>
      apply lookup_app_Some in H as [H | [_ H]];
      [ | apply list_lookup_singleton_Some in H as [_ H] ]
  end.

Lemma cancel_errors_step c l c' :
  cancel_errors c -> step c l = Some c' -> cancel_errors c'.
Proof.
  intros [HL HT] Hs. split.
  - intros t r Hin.
    assert (In (EvResult ByCancel t r) (log c) \/
            exists i, threads c !! i = Some (PPushSend t r) \/
                      threads c !! i = Some (PTrySend t r)) as [H | [i H]].
    { pose proof Hs as Hs'.
      all_steps Hs'; simpl in Hin; try (by left);
        destruct Hin as [Hin | Hin]; try (by left); try discriminate Hin;
        injection Hin as <- <-; right; eauto. }
    + eapply cancel_sound_step; eauto.
    + eapply cancel_sound_step; eauto.
  - intros j t r Hth.
    assert ((threads c !! j = Some (PPushSend t r) \/
             threads c !! j = Some (PTrySend t r)) \/ cancel_sound c t r)
      as [H | H].
    { pose proof Hs as Hs'.
      all_steps Hs'; simpl in Hth; try (by left);
        destruct Hth as [Hth | Hth]; thread_lookup Hth;
        try (left; by eauto); try discriminate Hth;
        try (destruct k as [| |[?|]|[?|]]; discriminate Hth);
        try (match goal with l : loop |- _ => destruct l end; discriminate Hth);
        simplify_eq; right; eexists; (split; [reflexivity |]); eauto. }
    + eapply cancel_sound_step; eauto.
    + eapply cancel_sound_step; eauto.
Qed.

(** ** Reachable configurations *)

(** An invariant of [step] that holds of the fresh pool holds along every
    run of a pool made by [NewPool]. *)
Lemma NewPool_invariant (I : config -> Prop) numCPU parent o :
  I (fresh numCPU parent o) ->
  (forall c l c', I c -> step c l = Some c' -> I c') ->
  forall ls c, run (NewPool numCPU parent o) ls = Some c -> I c.
Proof.
  intros Hinit Hstep ls c Hrun.
  destruct (NewPool_run numCPU parent o) as [ls0 Hls0].
  eapply (run_invariant I Hstep (ls0 ++ ls)); [exact Hinit |].
  rewrite run_app, Hls0. exact Hrun.
Qed.

Section Reachable.
Context (numCPU : Z) (parent : option error) (o : Option).
Context (ls : list label) (c : config).
Context (Hrun : run (NewPool numCPU parent o) ls = Some c).

Lemma reachable_conserved t : conserved t c.
Proof.
  eapply (NewPool_invariant (conserved t)); eauto using conserved_step.
  reflexivity.
Qed.

Lemma reachable_run_or_cancelled t : run_or_cancelled t c.
Proof.
  eapply (NewPool_invariant (run_or_cancelled t));
    eauto using run_or_cancelled_step.
  unfold run_or_cancelled, queued, invocations, cancel_results, rejections,
    submissions. simpl. lia.
Qed.

Lemma reachable_rejects_bounded t : rejects_bounded t c.
Proof.
  eapply (NewPool_invariant (rejects_bounded t));
    eauto using rejects_bounded_step.
  unfold rejects_bounded, rejections, try_submissions. simpl. lia.
Qed.

Lemma reachable_futures_bounded : futures_bounded c.
Proof.
  eapply (NewPool_invariant futures_bounded); eauto using futures_bounded_step.
  intros t tk H. discriminate H.
Qed.

Lemma reachable_spawns_accounted : spawns_accounted c.
Proof.
  eapply (NewPool_invariant spawns_accounted);
    eauto using spawns_accounted_step.
  reflexivity.
Qed.

Lemma reachable_lifecycle : lifecycle c.
Proof.
  eapply (NewPool_invariant lifecycle); eauto using lifecycle_step.
  by left.
Qed.

Lemma reachable_cancel_errors : cancel_errors c.
Proof.
  eapply (NewPool_invariant cancel_errors); eauto using cancel_errors_step.
  split; [intros t r [] | intros i t r [H | H]; discriminate H].
Qed.

Lemma reachable_opt : opt (pool c) = normalize numCPU o.
Proof.
  eapply (NewPool_invariant (fun c => opt (pool c) = normalize numCPU o));
    eauto.
  intros c0 l c' H Hs. by rewrite (opt_step _ _ _ Hs).
Qed.

Lemma reachable_expansion_counted : expansion_counted c.
Proof.
  eapply (NewPool_invariant expansion_counted);
    eauto using expansion_counted_step.
  intros _. simpl. split; [done | apply normalize_limit_nonneg].
Qed.

Lemma reachable_served : (0 < numCPU)%Z -> served c.
Proof.
  intros Hcpu.
  eapply (NewPool_invariant
            (fun c => opt (pool c) = normalize numCPU o /\ served c));
    eauto.
  - split; [done |]. intros H. unfold started in H. simpl in H. lia.
  - intros c0 l c' [Ho Hsv] Hs. split.
    + by rewrite (opt_step _ _ _ Hs).
    + eapply served_step; eauto. rewrite Ho.
      by apply normalize_workers_pos.
Qed.
End Reachable.

(** ** Execute and TryExecute *)

Lemma submitted_valid_step c l c' :
  submitted_valid c -> step c l = Some c' -> submitted_valid c'.
Proof.
  intros HI Hs t. unfold submitted_valid, submissions in *.
  specialize (HI t).
  all_steps Hs; simpl; rewrite ?length_app, ?length_insert; simpl;
    try (intros H; apply HI in H; lia).
  destruct k as [| |[t'|]|[t'|]]; simpl in *; try done;
    apply bool_decide_eq_true in E;
    (destruct (decide (t' = t)) as [-> | Hne];
     [ done
     | rewrite bool_decide_eq_false_2 by done; intros H; apply HI; lia ]).
Qed.

(** [ExecuteWithCtx] and [TryExecuteWithCtx] allocate a new task and enter
    [Do] / [TryDo] with it: this is the only submission of that task so
    far. *)
Lemma Execute_submits_once numCPU parent o ls c x e
  (Hrun : run (NewPool numCPU parent o) ls = Some c)
  (Hlive : panicked c = false) :
  let t := length (heap c) in
  (exists c',
     run c (ExecuteWithCtx c x e) = Some c' /\
     heap c' = heap c ++ [NewTask (Some (default PoolCtx x)) e] /\
     threads c' = threads c ++ [PDo (Some t)] /\
     submissions c' t = 1) /\
  (exists c',
     run c (TryExecuteWithCtx c x e) = Some c' /\
     heap c' = heap c ++ [NewTask (Some (default PoolCtx x)) e] /\
     threads c' = threads c ++ [PTryDo (Some t)] /\
     submissions c' t = 1).
Proof.
  intros t.
  assert (Hnone : submissions c t = 0).
  { assert (Hv : submitted_valid c).
    { eapply (NewPool_invariant submitted_valid);
        eauto using submitted_valid_step.
      intros t' H. unfold submissions in H. simpl in H. lia. }
    specialize (Hv t). unfold t in *. lia. }
  split; eexists; (split; [
    unfold ExecuteWithCtx, TryExecuteWithCtx; simpl run; unfold step;
    rewrite Hlive; simpl; rewrite Hlive, length_app; simpl;
    rewrite bool_decide_eq_true_2 by lia; reflexivity |]);
    simpl; repeat split; unfold submissions in *; simpl;
    fold t; rewrite bool_decide_eq_true_2 by done; lia.
Qed.

(** ** Goroutines at rest *)

Section Settled.
Context (c : config) (Hsettled : settled c) (Hlive : panicked c = false).
Context (Hquiet : tally executing (threads c) = 0).

Lemma settled_pc i p ch :
  threads c !! i = Some p -> step_pc i p ch c = Blocked.
Proof.
  intros Hi. specialize (Hsettled i ch). unfold step in Hsettled.
  rewrite Hlive, Hi in Hsettled. by destruct (step_pc i p ch c).
Qed.

(** A goroutine responsible for [t] and not inside an executor is at rest
    only in [push] before a full queue, or before the full future of [t]. *)
Lemma settled_holding i p t :
  threads c !! i = Some p -> holding t p = true ->
  (closed (pool c) = false /\ taskQueue (pool c) <> []) \/
  (exists tk, heap c !! t = Some tk /\ t_future tk <> []).
Proof.
  intros Hi Hh.
  pose proof (tally_none _ _ _ _ Hquiet Hi) as Hex.
  pose proof (settled_pc i p ChRun Hi) as Hrun.
  pose proof (settled_pc i p ChSend Hi) as Hsend.
  pose proof (settled_pc i p ChDefault Hi) as Hdef.
  pose proof (settled_pc i p ChRecv Hi) as Hrecv.
  destruct p; simpl in Hh; try discriminate Hh; try discriminate Hex;
    repeat match goal with
    | o : option nat |- _ => destruct o; try discriminate Hh
    end;
    apply bool_decide_eq_true in Hh; subst;
    simpl in *;
    unfold and_then, after_Add, on_done, queue_send, future_send, wg_Add,
      wg_wake, AddInt32_expanded in *;
    cbv beta zeta in *;
    repeat match goal with
    | H : context [match ?x with _ => _ end] |- _ =>
        lazymatch x with
        | context [match _ with _ => _ end] => fail
        | _ => let E := fresh "E" in destruct x eqn:E; try discriminate H
        end
    end;
    try (left; split; [done |]; intros Hq; rewrite Hq in *; discriminate);
    try (right; eexists; split; [done |]; intros Hq; rewrite Hq in *;
         discriminate);
    discriminate.
Qed.

Lemma settled_starting i p :
  threads c !! i = Some p -> starting p = false.
Proof.
  intros Hi. pose proof (settled_pc i p ChRun Hi) as Hrun.
  destruct p; simpl in *; try done;
    unfold and_then, after_Add, wg_Add, wg_wake in *;
    cbv beta zeta in *;
    repeat match goal with
    | H : context [match ?x with _ => _ end] |- _ =>
        lazymatch x with
        | context [match _ with _ => _ end] => fail
        | _ => let E := fresh "E" in destruct x eqn:E; try discriminate H
        end
    end;
    discriminate.
Qed.

(** A core worker is at rest only before an empty open queue, or before
    the full future of the task it ran. *)
Lemma settled_core i p :
  threads c !! i = Some p -> core_alive p = true ->
  (closed (pool c) = false /\ taskQueue (pool c) = []) \/
  (exists t tk, holding t p = true /\ heap c !! t = Some tk /\
                t_future tk <> []).
Proof.
  intros Hi Hc. pose proof (settled_pc i p ChRun Hi) as Hrun.
  pose proof (tally_none _ _ _ _ Hquiet Hi) as Hex.
  destruct p; simpl in Hc; try discriminate Hc; try discriminate Hex;
    repeat match goal with
    | l : loop |- _ => destruct l; try discriminate Hc
    end;
    simpl in *;
    unfold and_then, queue_recv, future_send in *;
    repeat match goal with
    | H : context [match ?x with _ => _ end] |- _ =>
        lazymatch x with
        | context [match _ with _ => _ end] => fail
        | _ => let E := fresh "E" in destruct x eqn:E; try discriminate H
        end
    end;
    try discriminate;
    try (by left);
    try (right; do 2 eexists; split; [by apply bool_decide_eq_true |];
         split; [done |]; intros Hq; rewrite Hq in *; discriminate).
Qed.
End Settled.

Lemma tally_zero {A} (f : A -> bool) (l : list A) :
  (forall i x, l !! i = Some x -> f x = false) -> tally f l = 0.
Proof.
  intros H. destruct (tally f l) eqn:E; [done |].
  destruct (tally_pos f l) as (i & x & Hi & Hx); [lia |].
  rewrite (H i x Hi) in Hx. discriminate.
Qed.

Lemma queued_nil t c : taskQueue (pool c) = [] -> queued t c = 0.
Proof. unfold queued. by intros ->. Qed.

(** ** Results *)

Lemma results_at_most_one c t :
  conserved t c -> submissions c t <= 1 -> results_written c t <= 1.
Proof. unfold conserved. lia. Qed.

(** Once every goroutine of a started pool is at rest and none is inside
    an executor, no submission is left with a goroutine or in the queue. *)
Lemma settled_resolved c t :
  settled c -> panicked c = false -> tally executing (threads c) = 0 ->
  served c -> started c -> futures_bounded c ->
  (forall t', conserved t' c) ->
  (forall t', submissions c t' <= 1) ->
  results_written c t + rejections c t = submissions c t.
Proof.
  intros Hset Hlive Hquiet Hserved Hstarted Hfut Hcons Hsub.
  assert (Hfull : forall i p t',
    threads c !! i = Some p -> holding t' p = true ->
    forall tk, heap c !! t' = Some tk -> t_future tk = []).
  { intros i p t' Hi Hh tk Htk.
    pose proof (tally_lookup (holding t') _ i p Hi Hh) as Hpos.
    pose proof (Hfut t' tk Htk) as Hlen.
    specialize (Hcons t'). specialize (Hsub t'). unfold conserved in Hcons.
    destruct (t_future tk); [done | simpl in Hlen; lia]. }
  assert (Hq : taskQueue (pool c) = []).
  { destruct (Hserved Hstarted) as [H | [H | [_ H]]]; [| | done].
    - apply tally_pos in H as (i & p & Hi & Hp).
      by rewrite (settled_starting c Hset Hlive i p Hi) in Hp.
    - apply tally_pos in H as (i & p & Hi & Hp).
      destruct (settled_core c Hset Hlive Hquiet i p Hi Hp)
        as [[_ H] | (t' & tk & Hh & Htk & Hne)]; [done |].
      by rewrite (Hfull i p t' Hi Hh tk Htk) in Hne. }
  assert (Hnone : tally (holding t) (threads c) = 0).
  { apply tally_zero. intros i p Hi.
    destruct (holding t p) eqn:Hh; [| done].
    destruct (settled_holding c Hset Hlive Hquiet i p t Hi Hh)
      as [[_ H] | (tk & Htk & Hne)]; [done |].
    by rewrite (Hfull i p t Hi Hh tk Htk) in Hne. }
  specialize (Hcons t). unfold conserved in Hcons.
  rewrite Hnone, (queued_nil t c Hq) in Hcons. lia.
Qed.


Lemma rejected_run_settled c :
  run (NewPool 1 None one_worker) rejected_run = Some c -> settled c.
Proof.
  intros H. vm_compute in H. injection H as <-.
  intros [|[|[|[|i]]]] ch; destruct ch; reflexivity.
Qed.



(** ** Cancellation *)

Lemma cancel_path_step t c l c' :
  step c l = Some c' -> cancel_path t c <= cancel_path t c'.
Proof.
  intros Hs. all_steps Hs; unfold cancel_path, cancel_results in *;
    count_solve.
Qed.

Lemma cancel_path_run t ls c c' :
  run c ls = Some c' -> cancel_path t c <= cancel_path t c'.
Proof.
  revert c. induction ls as [|l ls IH]; intros c Hrun; simpl in Hrun.
  - injection Hrun as <-. lia.
  - destruct (step c l) as [c1|] eqn:Hs; [| done].
    pose proof (cancel_path_step t _ _ _ Hs). specialize (IH _ Hrun). lia.
Qed.

Lemma only_cancel_results t (l : list event) :
  tally (is_result t) l <= tally (is_cancel_result t) l ->
  forall o r, In (EvResult o t r) l -> o = ByCancel.
Proof.
  induction l as [|e l IH]; intros Hle o r Hin; [destruct Hin |].
  assert (Hmono : tally (is_cancel_result t) l <= tally (is_result t) l).
  { clear. induction l as [|e l IH]; simpl; [lia |].
    destruct e as [| |[]| | | |]; simpl; repeat case_bool_decide; lia. }
  simpl in Hle. destruct Hin as [-> | Hin].
  - simpl in Hle. rewrite bool_decide_eq_true_2 in Hle by done.
    destruct o; [| done]. simpl in Hle. lia.
  - apply (IH ltac:(destruct e as [| |[]| | | |]; simpl in Hle;
                    repeat case_bool_decide; lia) o r Hin).
Qed.

Lemma tally_In {A} (f : A -> bool) (l : list A) a :
  In a l -> f a = true -> 0 < tally f l.
Proof.
  induction l as [|x l IH]; intros Hin Hf; [destruct Hin |]. simpl.
  destruct Hin as [-> | Hin]; [rewrite Hf; lia |].
  specialize (IH Hin Hf). lia.
Qed.

Lemma tally_unique {A} (f : A -> bool) (l : list A) a b :
  tally f l <= 1 -> In a l -> In b l -> f a = true -> f b = true -> a = b.
Proof.
  induction l as [|x l IH]; intros Hle Ha Hb Hfa Hfb; [destruct Ha |].
  simpl in Hle. destruct Ha as [-> | Ha], Hb as [-> | Hb]; [done | | |].
  - pose proof (tally_In f l b Hb Hfb). rewrite Hfa in Hle. lia.
  - pose proof (tally_In f l a Ha Hfa). rewrite Hfb in Hle. lia.
  - apply IH; try done. destruct (f x); lia.
Qed.

Lemma bypass_tracked_step viaTry i t r c l c' :
  bypass_tracked viaTry i t r c -> step c l = Some c' ->
  bypass_tracked viaTry i t r c'.
Proof.
  unfold bypass_tracked, bypass_send, bypass_ret.
  intros HI Hs.
  all_steps Hs; simpl;
    destruct HI as [HI | [HI Hin]];
    repeat match goal with
    | |- context [<[?a := _]> _ !! ?b] =>
        destruct (decide (a = b)) as [<- | ?];
        [ rewrite list_lookup_insert_eq
            by (rewrite ?length_app; eapply Nat.lt_le_trans;
                [eapply lookup_lt_Some; eassumption | lia])
        | rewrite list_lookup_insert_ne by done ]
    end;
    rewrite ?(lookup_app_l_Some _ _ _ _ HI);
    try match goal with
    | E : threads ?c !! ?i = Some _, H : threads ?c !! ?i = Some _ |- _ =>
        rewrite E in H
    end;
    destruct viaTry; simplify_eq;
    first [ by left
          | right; split; [done | first [done | by left | by right]] ].
Qed.

Lemma bypass_tracked_run viaTry i t r ls c c' :
  bypass_tracked viaTry i t r c -> run c ls = Some c' ->
  bypass_tracked viaTry i t r c'.
Proof.
  apply (run_invariant (bypass_tracked viaTry i t r)).
  intros c0 l c1. apply bypass_tracked_step.
Qed.

Lemma submitted_valid_reachable numCPU parent o ls c :
  run (NewPool numCPU parent o) ls = Some c -> submitted_valid c.
Proof.
  intros Hrun.
  eapply (NewPool_invariant submitted_valid); eauto using submitted_valid_step.
  intros t' H. unfold submissions in H. simpl in H. lia.
Qed.

(** C2, amended: when the scope of a task, or the pool scope, is done while
    the goroutine that submits the task is at the [select] of [push] or of
    [TryDo], that is before the queue has accepted the task, the branch of
    that scope is ready.  Once it is taken, and as long as the task is not
    submitted a second time, the task is never enqueued nor handed to a
    worker and its executor is never called; the goroutine is before its
    write, which no other goroutine can block and which puts the
    cancellation error of that scope into the empty future, or it has
    written it and returned, and that error is the only result the future
    ever got. *)
Theorem cancelled_before_enqueue numCPU parent o ls c i t x e viaTry
  (Hrun : run (NewPool numCPU parent o) ls = Some c)
  (Hlive : panicked c = false)
  (Hpc : threads c !! i = Some (bypass_select viaTry t))
  (Hctx : task_ctx c t = Some x)
  (Hdone : p_ctx (pool c) = Some e \/ ctx_err c x = Some e) :
  let r := cancel_result e in
  let c1 := goto i (bypass_send viaTry t r) c in
  (exists ch, step c (LStep i ch) = Some c1) /\
  forall ls' c',
    run c1 ls' = Some c' -> submissions c' t <= 1 ->
    invocations c' t = 0 /\ queued t c' = 0 /\
    tally (received t) (threads c') = 0 /\
    tally (submitting t) (threads c') = 0 /\
    ((threads c' !! i = Some (bypass_send viaTry t r) /\
      results_written c' t = 0 /\
      (panicked c' = false ->
       exists c'' tk,
         step c' (LStep i ChRun) = Some c'' /\
         heap c'' !! t = Some tk /\ t_future tk = [r] /\
         threads c'' !! i = Some (bypass_ret viaTry) /\
         log c'' = EvResult ByCancel t r :: log c' /\
         panicked c'' = false)) \/
     (threads c' !! i = Some (bypass_ret viaTry) /\
      results_written c' t = 1 /\
      forall ori r', In (EvResult ori t r') (log c') ->
        ori = ByCancel /\ r' = r)).
Proof.
  intros r c1.
  assert (Hi : i < length (threads c)) by (by eapply lookup_lt_Some).
  assert (Hbranch : exists ch, step c (LStep i ch) = Some c1).
  { destruct Hdone as [He | He];
      [exists ChPoolDone | exists ChTaskDone];
      rewrite (step_at c i _ _ Hlive Hpc);
      unfold bypass_select, c1, bypass_send; destruct viaTry; simpl;
      by rewrite Hctx, He. }
  split; [exact Hbranch |]. destruct Hbranch as [ch Hstep].
  intros ls' c' Hlater Honce.
  assert (Hrun' : run (NewPool numCPU parent o) (ls ++ LStep i ch :: ls')
                  = Some c').
  { rewrite run_app, Hrun. simpl. by rewrite Hstep. }
  assert (Hsent : holding t (bypass_send viaTry t r) = true /\
                  bypassing t (bypass_send viaTry t r) = true).
  { unfold bypass_send. destruct viaTry; simpl;
      by rewrite bool_decide_eq_true_2. }
  destruct Hsent as [Hhold Hbyp].
  assert (Hpath : 0 < cancel_path t c').
  { pose proof (cancel_path_run t _ _ _ Hlater) as Hmono.
    assert (0 < tally (bypassing t) (threads c1)).
    { eapply tally_lookup; [by apply lookup_goto | exact Hbyp]. }
    unfold cancel_path in *. lia. }
  pose proof (reachable_run_or_cancelled _ _ _ _ _ Hrun' t) as Hroc.
  pose proof (reachable_conserved _ _ _ _ _ Hrun' t) as Hcons.
  pose proof (reachable_futures_bounded _ _ _ _ _ Hrun') as Hfut.
  pose proof (submitted_valid_reachable _ _ _ _ _ Hrun' t) as Hvalid.
  assert (Htrack : bypass_tracked viaTry i t r c').
  { eapply bypass_tracked_run; [| exact Hlater]. left. by apply lookup_goto. }
  assert (Hle : tally (bypassing t) (threads c') <= tally (holding t) (threads c')).
  { clear. induction (threads c') as [|p l IH]; simpl; [lia |].
    destruct p; simpl; repeat case_bool_decide; lia. }
  unfold run_or_cancelled, conserved, cancel_path in *.
  split; [lia |]. split; [lia |]. split; [lia |]. split; [lia |].
  destruct Htrack as [Hsend | [Hret Hin]].
  - left. split; [exact Hsend |].
    pose proof (tally_lookup (holding t) _ _ _ Hsend Hhold) as Hheld.
    split; [lia |]. intros Hlive'.
    destruct (lookup_lt_is_Some_2 (heap c') t ltac:(apply Hvalid; lia))
      as [tk Htk].
    assert (Hempty : t_future tk = []).
    { pose proof (Hfut t tk Htk) as Hlen.
      destruct (t_future tk); [done | simpl in Hlen; lia]. }
    assert (Hi' : i < length (threads c')) by (by eapply lookup_lt_Some).
    assert (Ht : t < length (heap c')) by (by eapply lookup_lt_Some).
    exists (goto i (bypass_ret viaTry)
              (emit (EvResult ByCancel t r)
                 (set_heap (<[t := set_future [r] tk]> (heap c')) c'))),
      (set_future [r] tk).
    split.
    { rewrite (step_at c' i _ _ Hlive' Hsend).
      unfold bypass_send, bypass_ret. destruct viaTry; simpl;
        unfold future_send; by rewrite Htk, Hempty. }
    simpl. rewrite !list_lookup_insert_eq by done. done.
  - right. split; [exact Hret |].
    pose proof (tally_In (is_result t) _ _ Hin
                  ltac:(simpl; by rewrite bool_decide_eq_true_2)) as Hpos.
    unfold results_written in *.
    split; [lia |]. intros ori r' Hin'.
    assert (Heq : EvResult ori t r' = EvResult ByCancel t r).
    { eapply (tally_unique (is_result t) (log c')); try done;
        [lia | simpl; by rewrite bool_decide_eq_true_2
         | simpl; by rewrite bool_decide_eq_true_2]. }
    by injection Heq as -> ->.
Qed.

Lemma cancelled_before_enqueue_witness :
  exists c c1 c2,
    run (NewPool 1 None one_worker) (take 4 cancelled_early_run) = Some c /\
    threads c !! 2 = Some (PPush 0) /\
    ctx_err c (UserCtx 0) = Some Canceled /\
    step c (LStep 2 ChTaskDone) = Some c1 /\
    step c1 (LStep 2 ChRun) = Some c2 /\
    invocations c2 0 = 0 /\
    t_future <$> heap c2 !! 0 = Some [cancel_result Canceled].
Proof.
  destruct (run (NewPool 1 None one_worker) (take 4 cancelled_early_run))
    as [c|] eqn:Hrun; [| vm_compute in Hrun; discriminate Hrun].
  assert (Hfacts :
    panicked c = false /\ threads c !! 2 = Some (bypass_select false 0) /\
    task_ctx c 0 = Some (UserCtx 0) /\
    ctx_err c (UserCtx 0) = Some Canceled /\
    step c (LStep 2 ChTaskDone)
    = Some (goto 2 (bypass_send false 0 (cancel_result Canceled)) c) /\
    submissions (goto 2 (bypass_send false 0 (cancel_result Canceled)) c) 0 <= 1).
  { vm_compute in Hrun. injection Hrun as <-.
    repeat split; try reflexivity; vm_compute; lia. }
  destruct Hfacts as (Hlive & Hpc & Hctx & Herr & Hstep & Honce).
  destruct (cancelled_before_enqueue 1 None one_worker _ c 2 0 (UserCtx 0)
              Canceled false Hrun Hlive Hpc Hctx (or_intror Herr))
    as [_ Hlater].
  destruct (Hlater [] _ eq_refl Honce)
    as (_ & _ & _ & _ & [(_ & _ & Hwrite) | (Hret & _)]).
  - destruct (Hwrite Hlive) as (c2 & tk & Hstep2 & Htk & Hfut & _ & Hlog & _).
    exists c, (goto 2 (bypass_send false 0 (cancel_result Canceled)) c), c2.
    split; [done |]. split; [exact Hpc |]. split; [exact Herr |].
    split; [exact Hstep |]. split; [exact Hstep2 |].
    split.
    + unfold invocations. rewrite Hlog.
      vm_compute in Hrun. injection Hrun as <-. reflexivity.
    + by rewrite Htk, <- Hfut.
  - exfalso. simpl in Hret.
    rewrite list_lookup_insert_eq in Hret by (by eapply lookup_lt_Some).
    discriminate Hret.
Defined.

(** C2, as stated, fails: a task whose scope is cancelled while it sits in
    the queue is still handed to the worker, its executor is called, and
    its future gets the executor's result, not a cancellation error. *)
Lemma cancelled_while_queued_counterexample :
  exists c1 c2,
    run (NewPool 1 None one_worker) queued_run = Some c1 /\
    taskQueue (pool c1) = [0] /\ invocations c1 0 = 0 /\
    tally (holding 0) (threads c1) = 0 /\
    run c1 cancelled_late_run = Some c2 /\
    ctx_err c2 (UserCtx 0) = Some Canceled /\
    invocations c2 0 = 1 /\ cancel_results c2 0 = 0 /\
    t_future <$> heap c2 !! 0 = Some [{| Result := ival 7; Err := None |}].
Proof.
  destruct (run (NewPool 1 None one_worker) queued_run)
    as [c1|] eqn:Hrun; [| vm_compute in Hrun; discriminate Hrun].
  destruct (run c1 cancelled_late_run) as [c2|] eqn:Hlater;
    [| vm_compute in Hrun; injection Hrun as <-; vm_compute in Hlater;
       discriminate Hlater].
  exists c1, c2.
  vm_compute in Hrun. injection Hrun as <-.
  vm_compute in Hlater. injection Hlater as <-.
  repeat split; reflexivity.
Qed.

(** ** Lifecycle *)

Lemma log_step c l c' :
  step c l = Some c' -> exists new, log c' = new ++ log c.
Proof.
  intros Hs. all_steps Hs; simpl;
    first [ by exists [] | by eexists [_] ].
Qed.

Lemma log_run ls c c' :
  run c ls = Some c' -> exists new, log c' = new ++ log c.
Proof.
  revert c. induction ls as [|l ls IH]; intros c Hrun; simpl in Hrun.
  - injection Hrun as <-. by exists [].
  - destruct (step c l) as [c1|] eqn:Hs; [| done].
    destruct (log_step _ _ _ Hs) as [n1 H1].
    destruct (IH _ Hrun) as [n2 H2].
    exists (n2 ++ n1). by rewrite H2, H1, app_assoc.
Qed.

Lemma transitions_app l1 l2 :
  transitions (l1 ++ l2) = transitions l1 ++ transitions l2.
Proof.
  induction l1 as [|e l1 IH]; simpl; [done |].
  destruct e; simpl; by rewrite ?IH.
Qed.

(** C3: along every run of a pool the lifecycle flag is 0, 1 or 2 and its
    history of successful compare-and-swaps is empty, 0->1, 0->2, or 0->1
    followed by 1->2: each transition fires at most once and the flag never
    moves backward.  [Start] on a pool that is started or stopped, and
    [Stop] on a stopped pool, return without any effect. *)
Theorem lifecycle_monotone numCPU parent o ls1 c1 ls2 c2
  (Hrun1 : run (NewPool numCPU parent o) ls1 = Some c1)
  (Hrun2 : run c1 ls2 = Some c2) :
  lifecycle c1 /\ lifecycle c2 /\
  (state (pool c1) <= state (pool c2))%Z /\
  (exists new, transitions (log c2) = new ++ transitions (log c1)) /\
  (forall i, panicked c1 = false -> threads c1 !! i = Some PStart ->
     state (pool c1) <> 0%Z ->
     step c1 (LStep i ChRun) = Some (goto i (PRet None) c1)) /\
  (forall i, panicked c1 = false -> threads c1 !! i = Some PStop1 ->
     state (pool c1) = 2%Z ->
     run c1 [LStep i ChRun; LStep i ChRun] = Some (goto i (PRet None) c1)).
Proof.
  assert (Hrun : run (NewPool numCPU parent o) (ls1 ++ ls2) = Some c2).
  { rewrite run_app, Hrun1. exact Hrun2. }
  pose proof (reachable_lifecycle _ _ _ _ _ Hrun1) as H1.
  pose proof (reachable_lifecycle _ _ _ _ _ Hrun) as H2.
  destruct (log_run _ _ _ Hrun2) as [new Hnew].
  assert (Htr : transitions (log c2)
                = transitions new ++ transitions (log c1)).
  { by rewrite Hnew, transitions_app. }
  repeat split; try done.
  - unfold lifecycle in *.
    destruct H1 as [[S1 T1]|[[S1 T1]|[[S1 T1]|[S1 T1]]]];
      destruct H2 as [[S2 T2]|[[S2 T2]|[[S2 T2]|[S2 T2]]]];
      rewrite S1, S2; try lia; exfalso;
      rewrite T1, T2 in Htr;
      destruct (transitions new) as [|? [|? [|? ?]]]; simpl in Htr;
      congruence.
  - by exists (transitions new).
  - intros i Hlive Hi Hst. unfold step. rewrite Hlive, Hi. simpl.
    unfold CompareAndSwap_state.
    by destruct (Z.eqb_spec (state (pool c1)) 0).
  - intros i Hlive Hi Hst.
    assert (Hlt : i < length (threads c1)) by (by eapply lookup_lt_Some).
    simpl. unfold step at 1. rewrite Hlive, Hi. simpl.
    unfold CompareAndSwap_state. rewrite Hst. simpl.
    unfold step. simpl. rewrite Hlive, list_lookup_insert_eq by done. simpl.
    unfold CompareAndSwap_state. simpl. rewrite Hst. simpl.
    unfold goto. simpl. by rewrite list_insert_insert_eq.
Qed.

Lemma lifecycle_monotone_witness :
  exists c1 c2,
    run (NewPool 1 None one_worker) [LCall CStop; LStep 2 ChRun] = Some c1 /\
    run c1 [LCall CStart; LStep 3 ChRun] = Some c2 /\
    state (pool c1) = 2%Z /\ state (pool c2) = 2%Z /\
    threads c2 !! 3 = Some (PRet None).
Proof.
  destruct (run (NewPool 1 None one_worker) [LCall CStop; LStep 2 ChRun])
    as [c1|] eqn:Hrun1; [| vm_compute in Hrun1; discriminate Hrun1].
  destruct (run c1 [LCall CStart]) as [c1'|] eqn:Hcall;
    [| vm_compute in Hrun1; injection Hrun1 as <-; vm_compute in Hcall;
       discriminate Hcall].
  assert (Hrun1' : run (NewPool 1 None one_worker)
                     ([LCall CStop; LStep 2 ChRun] ++ [LCall CStart])
                   = Some c1').
  { rewrite run_app, Hrun1. exact Hcall. }
  assert (Hfacts : panicked c1' = false /\ threads c1' !! 3 = Some PStart /\
                   state (pool c1') = 2%Z /\ state (pool c1) = 2%Z).
  { vm_compute in Hrun1. injection Hrun1 as <-.
    vm_compute in Hcall. injection Hcall as <-. repeat split; reflexivity. }
  destruct Hfacts as (Hlive & Hi & Hst' & Hst).
  destruct (lifecycle_monotone 1 None one_worker _ c1' [] c1' Hrun1' eq_refl)
    as (_ & _ & _ & _ & Hnoop & _).
  specialize (Hnoop 3 Hlive Hi ltac:(rewrite Hst'; lia)).
  exists c1, (goto 3 (PRet None) c1').
  split; [done |]. split.
  - change [LCall CStart; LStep 3 ChRun] with ([LCall CStart] ++ [LStep 3 ChRun]).
    rewrite run_app, Hcall. simpl. by rewrite Hnoop.
  - split; [done |]. split; [done |]. simpl.
    apply list_lookup_insert_eq. by eapply lookup_lt_Some.
Defined.

(** ** Do after Stop *)

(** After [Stop] has returned, the [select] of [push] has two ready
    branches for a new task: the done pool scope, which resolves the
    future with the cancellation error, and the send on the closed queue,
    which panics. *)
Lemma Do_after_Stop :
  exists c c1 c2,
    run (NewPool 1 None one_worker) (stop_run ++ late_run) = Some c /\
    threads c !! 2 = Some (PRet None) /\ threads c !! 3 = Some (PPush 0) /\
    run c [LStep 3 ChPoolDone; LStep 3 ChRun] = Some c1 /\
    t_future <$> heap c1 !! 0 = Some [cancel_result Canceled] /\
    step c (LStep 3 ChSend) = Some c2 /\ panicked c2 = true.
Proof.
  destruct (run (NewPool 1 None one_worker) (stop_run ++ late_run))
    as [c|] eqn:Hrun; [| vm_compute in Hrun; discriminate Hrun].
  vm_compute in Hrun. injection Hrun as <-.
  do 3 eexists. split; [reflexivity |].
  split; [reflexivity |]. split; [reflexivity |].
  split; [vm_compute; reflexivity |].
  split; [reflexivity |]. split; [vm_compute; reflexivity | reflexivity].
Qed.

(** ** Expansion *)

Lemma along_invariant (J P : config -> Prop) :
  (forall c l c', J c -> P c -> step c l = Some c' -> J c') ->
  forall ls c c', J c -> along P c ls -> run c ls = Some c' -> J c'.
Proof.
  intros Hstep ls. induction ls as [|l ls IH]; intros c c' HJ HP Hrun;
    simpl in *.
  - by injection Hrun as <-.
  - destruct HP as [HP Hrest].
    destruct (step c l) as [c1|] eqn:Hs; [| done]. eauto.
Qed.

Lemma solo_invariant (I : config -> Prop) i :
  (forall c c', I c -> step c (LStep i ChRun) = Some c' -> I c') ->
  forall fuel c, I c -> I (solo fuel i c).
Proof.
  intros Hstep fuel. induction fuel as [|fuel IH]; intros c Hc; simpl;
    [done |].
  destruct (step c (LStep i ChRun)) as [c1|] eqn:Hs; [| done]. eauto.
Qed.

(** Only a call of [Do] brings a goroutine into [Do], and only [Do]
    spawns an expanded worker. *)
Lemma quiet_step c l c' :
  quiet c -> step c l = Some c' -> (forall t, l <> LCall (CDo t)) -> quiet c'.
Proof.
  intros [HI1 HI2] Hs Hl. unfold quiet.
  all_steps Hs; simpl in *;
    try match goal with
    | E : threads ?c !! ?i = Some ?p |- _ =>
        pose proof (tally_none _ _ _ _ HI1 E) as Hno1; simpl in Hno1;
        try discriminate Hno1;
        pose proof (tally_none _ _ _ _ HI2 E) as Hno2; simpl in Hno2;
        try discriminate Hno2
    end;
    repeat match goal with
    | k : call |- _ => destruct k as [| |t'|[?|]]; simpl in *
    | l : loop |- _ => destruct l; simpl in *
    end;
    try discriminate;
    try (by destruct (Hl t'));
    tally_threads; simpl in *; try lia.
Qed.

Lemma expansion_exact_step c l c' :
  expansion_exact c -> quiet c \/ rollbacks_fit c ->
  step c l = Some c' -> expansion_exact c'.
Proof.
  intros [HI1 HI2] Hfit Hs.
  unfold expansion_exact, rollbacks_fit, quiet, live_expanded in *.
  pose proof (tally_in_expansion (threads c)) as Hsum.
  all_steps Hs; unfold cancel in *; simpl in *;
    repeat match goal with
    | k : call |- _ => destruct k as [| |[?|]|[?|]]; simpl in *
    | l : loop |- _ => destruct l; simpl in *
    | |- context [match p_ctx ?x with _ => _ end] => destruct (p_ctx x); simpl
    | H : (_ <=? _)%Z = true |- _ => apply Z.leb_le in H
    | H : (_ <=? _)%Z = false |- _ => apply Z.leb_gt in H
    end;
    try match goal with
    | E : threads ?c !! ?i = Some ?p |- _ =>
        destruct Hfit as [[Hq1 Hq2] | Hfit];
        [ pose proof (tally_none _ _ _ _ Hq1 E) as Hno1; simpl in Hno1;
          try discriminate Hno1;
          pose proof (tally_none _ _ _ _ Hq2 E) as Hno2; simpl in Hno2;
          try discriminate Hno2
        | ];
        pose proof (tally_lookup in_expansion (threads c) i p E) as Hin;
        simpl in Hin; try specialize (Hin eq_refl)
    end;
    try rewrite wrap32_id in * by lia;
    tally_threads; simpl in *; try lia.
Qed.

Lemma NewPool_expansion_exact numCPU parent o :
  expansion_exact (NewPool numCPU parent o).
Proof.
  assert (Hfresh : expansion_exact (fresh numCPU parent o) /\
                   quiet (fresh numCPU parent o)).
  { split; [| done]. split; [done |]. simpl. apply normalize_limit_nonneg. }
  unfold NewPool.
  destruct (DisableAutoStart (opt (pool (fresh numCPU parent o))));
    [apply Hfresh |].
  apply (solo_invariant (fun c => expansion_exact c /\ quiet c)).
  - intros c c' [HE HD] Hs. split.
    + eapply expansion_exact_step; eauto.
    + eapply quiet_step; eauto.
  - destruct Hfresh as [[H1 H2] [H3 H4]]. unfold quiet, expansion_exact.
    simpl in *. rewrite ?tally_app. simpl. repeat split; try done; lia.
Qed.



(** Bring a configuration built by the functions of [step] into the form
    of a record. *)
Ltac settle :=
  unfold goto, emit, spawn, upd_pool, set_pool, set_threads;
  cbn [threads pool heap scopes panicked log];
  rewrite ?insert_spawned.

Lemma tally_replicate {A} (f : A -> bool) (x : A) m :
  tally f (replicate m x) = if f x then m else 0.
Proof.
  induction m as [|m IH]; simpl; [by destruct (f x) |].
  rewrite IH. by destruct (f x).
Qed.

(** One submission that finds the open queue full and the counter at or
    above the limit stops before its rollback, with the counter one
    higher. *)
Lemma park_one t c tk x :
  panicked c = false -> closed (pool c) = false ->
  queue_cap <= length (taskQueue (pool c)) ->
  heap c !! t = Some tk -> t_ctx tk = Some x ->
  ExpandableLimit (opt (pool c)) <> 0%Z ->
  (ExpandableLimit (opt (pool c)) <= expanded (pool c))%Z ->
  (- 2 ^ 31 <= expanded (pool c))%Z -> (expanded (pool c) + 1 < 2 ^ 31)%Z ->
  run c (park_labels t (length (threads c)) 1)
  = Some {| pool := set_expanded (expanded (pool c) + 1) (pool c);
            heap := heap c; scopes := scopes c;
            threads := threads c ++ [PDoRollback t];
            panicked := false;
            log := EvCall (CDo (Some t)) :: log c |}.
Proof.
  intros Hlive Hopen Hfull Htk Hctx Hlim Hle Hlo Hhi.
  assert (Ht : t < length (heap c)) by (by eapply lookup_lt_Some).
  cbn [park_labels run].
  unfold step at 1. rewrite Hlive. cbn [valid_call].
  rewrite bool_decide_eq_true_2 by done.
  erewrite step_at; [| exact Hlive | apply lookup_spawned].
  cbn [entry step_pc]. settle. rewrite Htk.
  destruct (Z.eqb_spec (ExpandableLimit (opt (pool c))) 0); [done |].
  unfold bind_ctx. rewrite Hctx. settle.
  erewrite step_at; [| exact Hlive | apply lookup_spawned].
  cbn [step_pc]. unfold queue_send. settle. rewrite Hopen.
  destruct (Nat.ltb_spec (length (taskQueue (pool c))) queue_cap); [lia |].
  settle.
  erewrite step_at; [| exact Hlive | apply lookup_spawned].
  cbn [step_pc]. unfold AddInt32_expanded. settle.
  rewrite wrap32_id by lia.
  destruct (Z.leb_spec (expanded (pool c) + 1)
              (ExpandableLimit (opt (pool c)))); [lia |].
  settle. by rewrite Hlive.
Qed.

Lemma park_labels_succ t k m :
  park_labels t k (S m) = park_labels t k 1 ++ park_labels t (S k) m.
Proof. reflexivity. Qed.

(** [m] such submissions, one after the other. *)
Lemma park_run t m : forall c tk x,
  panicked c = false -> closed (pool c) = false ->
  queue_cap <= length (taskQueue (pool c)) ->
  heap c !! t = Some tk -> t_ctx tk = Some x ->
  ExpandableLimit (opt (pool c)) <> 0%Z ->
  (ExpandableLimit (opt (pool c)) <= expanded (pool c))%Z ->
  (- 2 ^ 31 <= expanded (pool c))%Z ->
  (expanded (pool c) + Z.of_nat m < 2 ^ 31)%Z ->
  exists c',
    run c (park_labels t (length (threads c)) m) = Some c' /\
    threads c' = threads c ++ replicate m (PDoRollback t) /\
    pool c' = set_expanded (expanded (pool c) + Z.of_nat m) (pool c) /\
    heap c' = heap c /\ panicked c' = false.
Proof.
  induction m as [|m IH]; intros c tk x Hlive Hopen Hfull Htk Hctx Hlim Hle
    Hlo Hhi.
  - exists c. split; [reflexivity |]. rewrite app_nil_r, Z.add_0_r.
    repeat split; try done. by destruct (pool c).
  - rewrite park_labels_succ, run_app.
    rewrite (park_one t c tk x) by (done || lia). cbn [mbind option_bind].
    match goal with
    | |- context [run ?c1 _] =>
        destruct (IH c1 tk x) as (c' & Hrun & Hth & Hpool & Hheap & Hlive');
        cbn [pool heap threads panicked set_expanded expanded opt closed
             taskQueue]; try done; try lia
    end.
    cbn [threads] in Hrun. rewrite length_app in Hrun. cbn [length] in Hrun.
    rewrite Nat.add_1_r in Hrun.
    exists c'. split; [exact Hrun |].
    cbn [threads pool heap] in Hth, Hpool, Hheap.
    split; [by rewrite Hth, <- app_assoc |].
    split; [| done]. rewrite Hpool. unfold set_expanded. cbn.
    f_equal. lia.
Qed.

(** With the counter at its maximum, one more submission that finds the
    open queue full wraps the counter around and spawns an expanded
    worker. *)
Lemma expand_wrapped t c tk x :
  panicked c = false -> closed (pool c) = false ->
  queue_cap <= length (taskQueue (pool c)) ->
  heap c !! t = Some tk -> t_ctx tk = Some x ->
  ExpandableLimit (opt (pool c)) <> 0%Z ->
  (- 2 ^ 31 <= ExpandableLimit (opt (pool c)))%Z ->
  expanded (pool c) = (2 ^ 31 - 1)%Z ->
  (0 < wg (pool c) < 2 ^ 31 - 1)%Z ->
  exists c',
    run c (expand_labels t (length (threads c))) = Some c' /\
    threads c' = threads c ++ [PPush t; PExpStart] /\
    opt (pool c') = opt (pool c) /\ panicked c' = false.
Proof.
  intros Hlive Hopen Hfull Htk Hctx Hlim Hlo Hmax Hwg.
  assert (Ht : t < length (heap c)) by (by eapply lookup_lt_Some).
  unfold expand_labels. cbn [run].
  unfold step at 1. rewrite Hlive. cbn [valid_call].
  rewrite bool_decide_eq_true_2 by done.
  erewrite step_at; [| exact Hlive | apply lookup_spawned].
  cbn [entry step_pc]. settle. rewrite Htk.
  destruct (Z.eqb_spec (ExpandableLimit (opt (pool c))) 0); [done |].
  unfold bind_ctx. rewrite Hctx. settle.
  erewrite step_at; [| exact Hlive | apply lookup_spawned].
  cbn [step_pc]. unfold queue_send. settle. rewrite Hopen.
  destruct (Nat.ltb_spec (length (taskQueue (pool c))) queue_cap); [lia |].
  settle.
  erewrite step_at; [| exact Hlive | apply lookup_spawned].
  cbn [step_pc]. unfold AddInt32_expanded. settle. rewrite Hmax.
  change (wrap32 (2 ^ 31 - 1 + 1)) with (- 2 ^ 31)%Z.
  destruct (Z.leb_spec (- 2 ^ 31) (ExpandableLimit (opt (pool c)))); [| lia].
  settle.
  erewrite step_at; [| exact Hlive | apply lookup_spawned].
  cbn [step_pc]. rewrite wg_Add_returns;
    [| lia | cbn [pool wg set_expanded]; lia
     | right; cbn [pool wg set_expanded]; lia].
  cbn [after_Add]. settle.
  erewrite step_at; [| exact Hlive | apply lookup_spawned].
  cbn [step_pc]. settle. eexists. split; [reflexivity |].
  cbn [threads pool panicked].
  rewrite insert_app_l by (rewrite length_app; simpl; lia).
  rewrite insert_spawned, <- app_assoc. done.
Qed.

(** C5, as stated, fails: the counter of expanded workers is an [int32].
    On a pool with one core worker and an expansion limit of 1, with the
    queue full and one expanded worker alive, 2^31 - 2 submissions that
    wait before their rollback bring the counter to its maximum; the next
    submission wraps it around to a negative value, which is within the
    limit, and spawns a second expanded worker. *)
Lemma expanded_limit_counterexample :
  exists c,
    run (NewPool 1 None expandable) flood_run = Some c /\
    panicked c = false /\
    ExpandableLimit (opt (pool c)) = 1%Z /\ live_expanded c = 2.
Proof.
  unfold flood_run.
  assert (Hm : Z.of_nat (Z.to_nat (2 ^ 31 - 2)) = (2 ^ 31 - 2)%Z) by lia.
  revert Hm. generalize (Z.to_nat (2 ^ 31 - 2)). intros m Hm.
  destruct (run (NewPool 1 None expandable) expanding_run) as [cA|] eqn:HA;
    [| vm_compute in HA; discriminate HA].
  assert (Hfacts :
    panicked cA = false /\ closed (pool cA) = false /\
    taskQueue (pool cA) = [0] /\
    heap cA !! 1 = Some (NewTask (Some PoolCtx) (Some seven)) /\
    ExpandableLimit (opt (pool cA)) = 1%Z /\ expanded (pool cA) = 1%Z /\
    wg (pool cA) = 2%Z /\
    threads cA = [PRet None; PWorker; PRet None; PPush 1; PExpStart]).
  { vm_compute in HA. injection HA as <-. repeat split; reflexivity. }
  destruct Hfacts as (Hlive & Hopen & Hq & Htk & Hlim & Hexp & Hwg & Hth).
  destruct (park_run 1 m cA (NewTask (Some PoolCtx) (Some seven)) PoolCtx)
    as (cB & HB & HthB & HpoolB & HheapB & HliveB);
    [ exact Hlive | exact Hopen | rewrite Hq; unfold queue_cap; simpl; lia
    | exact Htk
    | reflexivity | rewrite Hlim; lia | rewrite Hlim, Hexp; lia
    | rewrite Hexp; lia | rewrite Hexp; lia | ].
  rewrite Hth in HB. cbn [length] in HB.
  destruct (expand_wrapped 1 cB (NewTask (Some PoolCtx) (Some seven)) PoolCtx)
    as (cC & HC & HthC & HoptC & HliveC);
    [ exact HliveB | by rewrite HpoolB
    | rewrite HpoolB; cbn; rewrite Hq; unfold queue_cap; simpl; lia
    | by rewrite HheapB | reflexivity | rewrite HpoolB; cbn; rewrite Hlim; lia
    | rewrite HpoolB; cbn; rewrite Hlim; lia
    | rewrite HpoolB; cbn; rewrite Hexp; lia
    | rewrite HpoolB; cbn; rewrite Hwg; lia | ].
  rewrite HthB, Hth, length_app, length_replicate in HC. cbn [length] in HC.
  exists cC. split.
  - rewrite run_app, HA. cbn [mbind option_bind]. rewrite run_app, HB.
    cbn [mbind option_bind]. exact HC.
  - split; [exact HliveC |]. split.
    + rewrite HoptC, HpoolB. cbn. exact Hlim.
    + unfold live_expanded. rewrite HthC, HthB, Hth, !tally_app.
      rewrite tally_replicate. reflexivity.
Qed.

(** ** Do *)

Lemma wrap32_range z : (- 2 ^ 31 <= wrap32 z < 2 ^ 31)%Z.
Proof.
  unfold wrap32. pose proof (Z.mod_pos_bound (z + 2 ^ 31) (2 ^ 32)). lia.
Qed.

Lemma wrap32_rollback z :
  (- 2 ^ 31 <= z < 2 ^ 31)%Z -> wrap32 (wrap32 (z + 1) + -1) = z.
Proof.
  intros Hz. unfold wrap32.
  destruct (Z.eq_dec z (2 ^ 31 - 1)%Z) as [-> | Hne]; [reflexivity |].
  rewrite (Z.mod_small (z + 1 + 2 ^ 31)) by lia.
  rewrite Z.mod_small; lia.
Qed.



(** ** TryDo *)

Lemma retarget_goto i p c :
  i < length (threads c) -> retarget i (goto i p c) = goto i (as_try p) c.
Proof.
  intros Hi. unfold retarget. rewrite lookup_goto by done.
  apply goto_goto.
Qed.



(** * Further properties *)

(** ** Weighted sums *)

Lemma weigh_app {A} (f : A -> Z) (l1 l2 : list A) :
  weigh f (l1 ++ l2) = (weigh f l1 + weigh f l2)%Z.
Proof. induction l1 as [|x l1 IH]; simpl; [done | rewrite IH; lia]. Qed.

Lemma weigh_insert {A} (f : A -> Z) (l : list A) i x y :
  l !! i = Some x ->
  (weigh f (<[i := y]> l) + f x = weigh f l + f y)%Z.
Proof.
  revert i. induction l as [|z l IH]; intros [|i] H; simpl in *; try done.
  - injection H as ->. lia.
  - specialize (IH i H). lia.
Qed.

Lemma weigh_nonneg {A} (f : A -> Z) (l : list A) :
  (forall i x, l !! i = Some x -> (0 <= f x)%Z) -> (0 <= weigh f l)%Z.
Proof.
  induction l as [|z l IH]; intros H; simpl; [lia |].
  pose proof (H 0 z eq_refl). specialize (IH (fun i => H (S i))). lia.
Qed.

Lemma weigh_zero {A} (f : A -> Z) (l : list A) i x :
  (forall i x, l !! i = Some x -> (0 <= f x)%Z) ->
  weigh f l = 0%Z -> l !! i = Some x -> f x = 0%Z.
Proof.
  revert i. induction l as [|z l IH]; intros [|i] Hpos Hsum Hi;
    simpl in *; try done.
  - injection Hi as ->.
    pose proof (Hpos 0 x eq_refl).
    pose proof (weigh_nonneg f l (fun i => Hpos (S i))). lia.
  - pose proof (Hpos 0 z eq_refl).
    pose proof (weigh_nonneg f l (fun i => Hpos (S i))).
    apply (IH i (fun i => Hpos (S i))); [lia | done].
Qed.

(** Like [tally_threads], for weighted sums. *)
Ltac weigh_threads :=
  repeat match goal with
  | E : threads ?c !! ?i = Some ?p
    |- context [<[?i := ?q]> (threads ?c ++ [?x])] =>
      rewrite (insert_app_l (threads c) [x] i q)
        by (eapply lookup_lt_Some; exact E)
  | |- context [weigh ?f (?l1 ++ ?l2)] => rewrite (weigh_app f l1 l2)
  | E : threads ?c !! ?i = Some ?p
    |- context [weigh ?f (<[?i := ?q]> (threads ?c))] =>
      let H := fresh "Hw" in
      pose proof (weigh_insert f (threads c) i p q E) as H;
      let x := fresh "w" in
      set (x := weigh f (<[i := q]> (threads c))) in *; clearbody x
  end.

Ltac z_bools :=
  repeat match goal with
  | H : (_ <? _)%Z = true |- _ => apply Z.ltb_lt in H
  | H : (_ <? _)%Z = false |- _ => apply Z.ltb_ge in H
  | H : (_ <=? _)%Z = true |- _ => apply Z.leb_le in H
  | H : (_ <=? _)%Z = false |- _ => apply Z.leb_gt in H
  | H : (_ =? _)%Z = true |- _ => apply Z.eqb_eq in H
  | H : (_ =? _)%Z = false |- _ => apply Z.eqb_neq in H
  | H : (_ =? _)%nat = true |- _ => apply Nat.eqb_eq in H
  | H : (_ =? _)%nat = false |- _ => apply Nat.eqb_neq in H
  | H : _ && _ = true |- _ => apply andb_true_iff in H as [? ?]
  | H : _ || _ = false |- _ => apply orb_false_iff in H as [? ?]
  | H : negb _ = true |- _ => apply negb_true_iff in H
  | H : negb _ = false |- _ => apply negb_false_iff in H
  end.

(** ** The wait group *)

Lemma wg_share_cap n p :
  (0 <= n)%Z -> bad_start n p = false ->
  (0 <= wg_share n p <= wg_cap n p)%Z.
Proof.
  intros Hn Hbad. unfold wg_cap. destruct p; simpl in *; lia.
Qed.

Lemma weigh_cap n (l : list pc) :
  weigh (wg_cap n) l
  = (n * Z.of_nat (tally in_Start l) + Z.of_nat (length l)
     - Z.of_nat (tally in_Start l))%Z.
Proof.
  induction l as [|p l IH]; simpl weigh; simpl tally; simpl length; [lia |].
  rewrite IH. unfold wg_cap. destruct (in_Start p); lia.
Qed.

(** The sum of the shares is not negative, and stays below the sum of the
    caps by what is missing at any one goroutine. *)
Lemma weigh_share_le n (l : list pc) :
  (0 <= n)%Z -> tally (bad_start n) l = 0 ->
  (0 <= weigh (wg_share n) l)%Z /\
  forall i p, l !! i = Some p ->
    (weigh (wg_share n) l + (wg_cap n p - wg_share n p)
     <= weigh (wg_cap n) l)%Z.
Proof.
  intros Hn. induction l as [|q l IH]; intros Hbad; simpl in *.
  - split; [lia | by intros i p H].
  - assert (Hq : bad_start n q = false) by (destruct (bad_start n q); [lia | done]).
    assert (Hl : tally (bad_start n) l = 0) by (rewrite Hq in Hbad; lia).
    destruct (IH Hl) as [IH1 IH2].
    pose proof (wg_share_cap n q Hn Hq).
    split; [lia |]. intros [|i] p Hp; simpl in Hp.
    + injection Hp as ->.
      assert (weigh (wg_share n) l <= weigh (wg_cap n) l)%Z; [| lia].
      destruct l as [|q' l']; [simpl; lia |].
      specialize (IH2 0 q' eq_refl).
      assert (Hq' : bad_start n q' = false).
      { simpl in Hl. destruct (bad_start n q'); [lia | done]. }
      pose proof (wg_share_cap n q' Hn Hq'). lia.
    + specialize (IH2 i p Hp). lia.
Qed.

Lemma bad_start_step c l c' :
  (0 <= NumberWorker (opt (pool c)))%Z ->
  tally (bad_start (NumberWorker (opt (pool c)))) (threads c) = 0 ->
  step c l = Some c' ->
  tally (bad_start (NumberWorker (opt (pool c')))) (threads c') = 0.
Proof.
  intros HN HI Hs.
  all_steps Hs; unfold cancel in *; simpl in *;
    repeat match goal with
    | k : call |- _ => destruct k as [| |[?|]|[?|]]; simpl in *
    | l : loop |- _ => destruct l; simpl in *
    | |- context [match p_ctx ?x with _ => _ end] => destruct (p_ctx x); simpl
    end;
    z_bools;
    try match goal with
    | E : threads ?c !! ?i = Some (PStartGo ?k) |- _ =>
        pose proof (tally_none _ _ _ _ HI E) as Hk; simpl in Hk;
        apply negb_false_iff, andb_true_iff in Hk as [Hk1 Hk2]; z_bools
    end;
    tally_threads; simpl in *;
    repeat match goal with
    | |- context [(?a <=? ?b)%Z] => destruct (Z.leb_spec a b); simpl in *
    | H : context [(?a <=? ?b)%Z] |- _ =>
        destruct (Z.leb_spec a b); simpl in *
    end;
    try lia.
Qed.

Lemma start_unique_step c l c' :
  start_unique c -> step c l = Some c' -> start_unique c'.
Proof.
  intros [HI1 HI2] Hs. unfold start_unique.
  all_steps Hs; unfold cancel in *; simpl in *;
    repeat match goal with
    | k : call |- _ => destruct k as [| |[?|]|[?|]]; simpl in *
    | l : loop |- _ => destruct l; simpl in *
    | |- context [match p_ctx ?x with _ => _ end] => destruct (p_ctx x); simpl
    end;
    z_bools;
    try match goal with
    | E : threads ?c !! ?i = Some ?p |- _ =>
        pose proof (tally_lookup in_Start (threads c) i p E) as Hin;
        simpl in Hin; try specialize (Hin eq_refl)
    end;
    tally_threads; simpl in *;
    (split; [| intros Hst]); try lia.
Qed.

Lemma length_threads_step c l c' :
  step c l = Some c' -> length (threads c) <= length (threads c').
Proof.
  intros Hs. all_steps Hs; simpl;
    rewrite ?length_insert, ?length_app, ?length_insert; simpl; lia.
Qed.

Lemma wg_fits_step c l c' :
  step c l = Some c' -> wg_fits c' -> wg_fits c.
Proof.
  intros Hs. unfold wg_fits. rewrite (opt_step _ _ _ Hs).
  pose proof (length_threads_step _ _ _ Hs). lia.
Qed.

Lemma wg_exact_step c l c' :
  (0 <= NumberWorker (opt (pool c)))%Z ->
  waitgroup_counted c -> step c l = Some c' ->
  wg_fits c' ->
  wg (pool c') = weigh (wg_share (NumberWorker (opt (pool c')))) (threads c').
Proof.
  intros HN (Hbad & [Hu1 Hu2] & HI) Hs Hfit'.
  pose proof (wg_fits_step _ _ _ Hs Hfit') as Hfit. specialize (HI Hfit).
  clear Hfit'. unfold wg_fits in Hfit.
  destruct (weigh_share_le _ (threads c) HN Hbad) as [Hw0 Hw1].
  pose proof (weigh_cap (NumberWorker (opt (pool c))) (threads c)) as Hcap.
  all_steps Hs; unfold cancel in *; simpl in *;
    repeat match goal with
    | k : call |- _ => destruct k as [| |[?|]|[?|]]; simpl in *
    | l : loop |- _ => destruct l; simpl in *
    | |- context [match p_ctx ?x with _ => _ end] => destruct (p_ctx x); simpl
    end;
    z_bools;
    try match goal with
    | E : threads ?c !! ?i = Some ?p |- _ =>
        pose proof (Hw1 i p E) as Hslack; rewrite Hcap in Hslack;
        unfold wg_cap in Hslack; simpl in Hslack;
        pose proof (tally_lookup in_Start (threads c) i p E) as Hin;
        simpl in Hin; try specialize (Hin eq_refl)
    end;
    try match goal with
    | E : threads ?c !! ?i = Some (PStartGo ?k) |- _ =>
        pose proof (tally_none _ _ _ _ Hbad E) as Hk; simpl in Hk;
        apply negb_false_iff, andb_true_iff in Hk as [Hk1 Hk2]; z_bools
    end;
    (destruct (tally in_Start (threads c)) as [|[|?]]; [| | lia]);
    try rewrite wrap32_id in * by lia;
    weigh_threads; simpl in *; try lia.
Qed.

Lemma waitgroup_counted_step c l c' :
  (0 <= NumberWorker (opt (pool c)))%Z ->
  waitgroup_counted c -> step c l = Some c' -> waitgroup_counted c'.
Proof.
  intros HN HI Hs. pose proof HI as (Hbad & Hu & _).
  split; [by eapply bad_start_step |].
  split; [by eapply start_unique_step |].
  by eapply wg_exact_step.
Qed.

Lemma tally_le {A} (f g : A -> bool) (l : list A) :
  (forall x, f x = true -> g x = true) -> tally f l <= tally g l.
Proof.
  intros H. induction l as [|x l IH]; simpl; [lia |].
  specialize (H x). destruct (f x); [rewrite H by done |]; destruct (g x); lia.
Qed.

Lemma waited_once_step c l c' :
  waited_once c -> step c l = Some c' -> waited_once c'.
Proof.
  intros (HI1 & HI2 & HI3) Hs. unfold waited_once.
  pose proof (tally_le sleeping in_Wait (threads c)
                ltac:(by intros []; simpl)) as Hsw.
  all_steps Hs; unfold cancel in *; simpl in *;
    repeat match goal with
    | k : call |- _ => destruct k as [| |[?|]|[?|]]; simpl in *
    | l : loop |- _ => destruct l; simpl in *
    | |- context [match p_ctx ?x with _ => _ end] => destruct (p_ctx x); simpl
    | E : closed (pool ?c) = _ |- _ => rewrite E in *
    | E : sema (pool ?c) = _ |- _ => rewrite E in *
    end;
    z_bools;
    try match goal with
    | E : threads ?c !! ?i = Some ?p |- _ =>
        pose proof (tally_lookup in_Wait (threads c) i p E) as Hin;
        simpl in Hin; try specialize (Hin eq_refl);
        pose proof (tally_lookup waking (threads c) i p E) as Hwk;
        simpl in Hwk; try specialize (Hwk eq_refl);
        pose proof (tally_lookup sleeping (threads c) i p E) as Hsl;
        simpl in Hsl; try specialize (Hsl eq_refl)
    end;
    tally_threads; simpl in *;
    (split; [| split; [| intros Hopen; try discriminate Hopen;
                         try rewrite Hopen in HI1;
                         try first [ specialize (HI3 Hopen)
                                   | specialize (HI3 eq_refl) ]]]);
    try lia.
Qed.

Lemma core_counted_step c l c' :
  (0 <= NumberWorker (opt (pool c)))%Z ->
  core_counted c -> step c l = Some c' -> core_counted c'.
Proof.
  intros HN HI Hs. unfold core_counted in *.
  all_steps Hs; unfold cancel in *; simpl in *; intros Hopen;
    try discriminate Hopen;
    repeat match goal with
    | |- context [match p_ctx ?x with _ => _ end] => destruct (p_ctx x); simpl
    | H : context [match p_ctx ?x with _ => _ end] |- _ =>
        destruct (p_ctx x); simpl in H
    end;
    try congruence;
    (match type of HI with
     | ?P -> _ =>
         assert (Hp : P) by first [exact Hopen | reflexivity | congruence];
         destruct (HI Hp) as (HI1 & HI2 & HI3); clear HI
     end);
    repeat match goal with
    | k : call |- _ => destruct k as [| |[?|]|[?|]]; simpl in *
    | l : loop |- _ => destruct l; simpl in *
    end;
    z_bools;
    try match goal with
    | E : threads ?c !! ?i = Some (PStartGo ?k) |- _ =>
        pose proof (tally_none _ _ _ _ HI3 E) as Hk; simpl in Hk;
        apply negb_false_iff, andb_true_iff in Hk as [Hk1 Hk2]; z_bools
    end;
    weigh_threads; tally_threads; simpl in *;
    repeat match goal with
    | |- context [(?a <=? ?b)%Z] => destruct (Z.leb_spec a b); simpl in *
    | H : context [(?a <=? ?b)%Z] |- _ =>
        destruct (Z.leb_spec a b); simpl in *
    end;
    try lia.
Qed.

Lemma closed_once_step c l c' :
  closed_once c -> step c l = Some c' -> closed_once c'.
Proof.
  intros [HI1 HI2] Hs. unfold closed_once.
  all_steps Hs; unfold cancel in *; simpl in *;
    repeat match goal with
    | k : call |- _ => destruct k as [| |[?|]|[?|]]; simpl in *
    | l : loop |- _ => destruct l; simpl in *
    | E : closed (pool ?c) = _ |- _ => rewrite E in *
    | E : p_ctx (pool ?c) = _ |- _ => rewrite E in *
    end;
    z_bools;
    repeat match goal with
    | |- context [match p_ctx ?x with _ => _ end] =>
        destruct (p_ctx x) eqn:?; simpl
    | |- context [(?a =? ?b)%Z] => destruct (Z.eqb_spec a b); simpl in *
    | H : context [(?a =? ?b)%Z] |- _ =>
        destruct (Z.eqb_spec a b); simpl in *
    end;
    tally_threads; simpl in *;
    (split; [try lia |]);
    try (intros _; congruence);
    try (intros [Hc | Hc];
         first [ discriminate | apply HI2; first [by left | right; lia]
               | done | lia ]).
Qed.

(** ** Tasks *)

Lemma task_fields_step c l c' t tk :
  step c l = Some c' -> heap c !! t = Some tk ->
  exists tk', heap c' !! t = Some tk' /\
    t_executor tk' = t_executor tk /\
    (t_ctx tk' = t_ctx tk \/ (t_ctx tk = None /\ t_ctx tk' = Some PoolCtx)).
Proof.
  intros Hs Htk.
  all_steps Hs; simpl;
    try (exists tk; split; [done | split; [done | by left]]);
    try (exists tk; split;
         [by apply lookup_app_l_Some | split; [done | by left]]);
    match goal with
    | |- context [<[?n := _]> _ !! _] =>
        destruct (decide (n = t)) as [-> | ?];
        [ rewrite list_lookup_insert_eq by (by eapply lookup_lt_Some);
          eexists; split; [done |]; simpl; simplify_eq; split; [done |];
          first [by left | by right]
        | rewrite list_lookup_insert_ne by done;
          exists tk; split; [done | split; [done | by left]] ]
    end.
Qed.

Lemma task_ctx_step c l c' t x :
  step c l = Some c' -> task_ctx c t = Some x -> task_ctx c' t = Some x.
Proof.
  intros Hs. unfold task_ctx.
  destruct (heap c !! t) as [tk|] eqn:Htk; [| done]. intros Hx.
  destruct (task_fields_step _ _ _ _ _ Hs Htk) as (tk' & -> & _ & [H | [H _]]);
    congruence.
Qed.

Lemma ctx_bound_step c l c' :
  ctx_bound c -> step c l = Some c' -> ctx_bound c'.
Proof.
  intros HI Hs j p t Hth Hsel.
  assert (Hkeep : task_ctx c t <> None -> task_ctx c' t <> None).
  { destruct (task_ctx c t) as [x|] eqn:Hx; [| done]. intros _.
    by rewrite (task_ctx_step _ _ _ _ _ Hs Hx). }
  assert ((exists p0, threads c !! j = Some p0 /\ selecting t p0 = true) \/
          task_ctx c' t <> None) as [(p0 & H1 & H2) | H]; [| eauto | done].
  pose proof Hs as Hs'.
  all_steps Hs'; simpl in Hth; thread_lookup Hth;
    try (left; eexists; split; [eassumption | done]);
    simplify_eq; simpl in Hsel; try discriminate Hsel;
    repeat match goal with
    | k : call |- _ => destruct k as [| |[?|]|[?|]]; try discriminate Hsel
    | l : loop |- _ => destruct l; try discriminate Hsel
    end;
    try (apply bool_decide_eq_true in Hsel; subst);
    try (left; eexists; split; [eassumption |]; simpl;
         by apply bool_decide_eq_true);
    right; unfold task_ctx; simpl;
    rewrite ?list_lookup_insert_eq by (by eapply lookup_lt_Some);
    simpl;
    repeat match goal with
    | E : heap ?c !! ?t = Some _ |- context [heap ?c !! ?t] => rewrite E
    end;
    congruence.
Qed.

(** ** Buffers and counters *)

Lemma buffers_bounded_step c l c' :
  buffers_bounded c -> step c l = Some c' -> buffers_bounded c'.
Proof.
  intros [HI1 HI2] Hs. unfold buffers_bounded.
  all_steps Hs; unfold cancel, queue_cap, future_cap in *; simpl in *;
    repeat match goal with
    | |- context [match p_ctx ?x with _ => _ end] => destruct (p_ctx x); simpl
    | E : taskQueue (pool ?c) = _ |- _ => rewrite E in *; simpl in *
    | H : (_ <? _) = true |- _ => apply Nat.ltb_lt in H
    end;
    (split; [rewrite ?length_app; simpl; lia |]);
    intros t' tk' Hl; try (by eapply HI2);
    heap_lookup Hl; simpl; rewrite ?length_app; simpl;
    try (by eapply HI2); try lia;
    match goal with
    | H : heap _ !! _ = Some _ |- _ => apply HI2 in H
    end;
    repeat match goal with
    | E : t_future _ = _ |- _ => rewrite E in *; simpl in *
    end; lia.
Qed.

Lemma counters_in_range_step c l c' :
  counters_in_range c -> step c l = Some c' -> counters_in_range c'.
Proof.
  intros [HI1 HI2] Hs. unfold counters_in_range.
  all_steps Hs; unfold cancel in *; simpl in *;
    repeat match goal with
    | |- context [match p_ctx ?x with _ => _ end] => destruct (p_ctx x); simpl
    end;
    try done;
    (split; [first [done | apply wrap32_range] | first [done | lia]]).
Qed.

Lemma start_counted_step c l c' :
  counters_in_range c ->
  start_counted c -> step c l = Some c' -> start_counted c'.
Proof.
  intros [_ Hst] [HI1 HI2] Hs. unfold start_counted.
  all_steps Hs; unfold cancel in *; simpl in *;
    repeat match goal with
    | k : call |- _ => destruct k as [| |[?|]|[?|]]; simpl in *
    | |- context [match p_ctx ?x with _ => _ end] => destruct (p_ctx x); simpl
    end;
    z_bools; try (split; [intros; first [lia | apply HI1; lia] | lia]);
    try (split; [done | lia]).
Qed.

(** ** Reachable configurations, continued *)

Section Reachable2.
Context (numCPU : Z) (parent : option error) (o : Option).
Context (ls : list label) (c : config).
Context (Hrun : run (NewPool numCPU parent o) ls = Some c).

Lemma reachable_workers_pos :
  (0 < numCPU)%Z -> (0 < NumberWorker (opt (pool c)))%Z.
Proof.
  intros H. rewrite (reachable_opt _ _ _ _ _ Hrun).
  by apply normalize_workers_pos.
Qed.

Lemma reachable_waitgroup_counted : (0 < numCPU)%Z -> waitgroup_counted c.
Proof.
  intros Hcpu.
  eapply (NewPool_invariant
            (fun c => opt (pool c) = normalize numCPU o /\ waitgroup_counted c));
    eauto.
  - split; [done |]. split; [done |]. split; [| done].
    split; simpl; [lia | done].
  - intros c0 l c' [Ho Hw] Hs. split.
    + by rewrite (opt_step _ _ _ Hs).
    + eapply waitgroup_counted_step; eauto. rewrite Ho.
      pose proof (normalize_workers_pos numCPU o Hcpu). lia.
Qed.

Lemma reachable_waited_once : waited_once c.
Proof.
  eapply (NewPool_invariant waited_once); eauto using waited_once_step.
  split; [simpl; lia |]. split; done.
Qed.

Lemma reachable_counters_in_range : counters_in_range c.
Proof.
  eapply (NewPool_invariant counters_in_range);
    eauto using counters_in_range_step.
  split; simpl; [lia | by left].
Qed.

Lemma reachable_start_counted : start_counted c.
Proof.
  eapply (NewPool_invariant
            (fun c => counters_in_range c /\ start_counted c)); eauto.
  - split; [split; simpl; [lia | by left] | split; simpl; [done | lia]].
  - intros c0 l c' [H1 H2] Hs. split.
    + by eapply counters_in_range_step.
    + by eapply start_counted_step.
Qed.

Lemma reachable_core_counted : (0 < numCPU)%Z -> core_counted c.
Proof.
  intros Hcpu.
  eapply (NewPool_invariant
            (fun c => opt (pool c) = normalize numCPU o /\ core_counted c));
    eauto.
  - split; [done |]. intros _. simpl. split; [lia | done].
  - intros c0 l c' [Ho Hw] Hs. split.
    + by rewrite (opt_step _ _ _ Hs).
    + eapply core_counted_step; eauto. rewrite Ho.
      pose proof (normalize_workers_pos numCPU o Hcpu). lia.
Qed.

Lemma reachable_closed_once : closed_once c.
Proof.
  eapply (NewPool_invariant closed_once); eauto using closed_once_step.
  split; [done |]. intros [H | H]; [done | simpl in H; lia].
Qed.

Lemma reachable_ctx_bound : ctx_bound c.
Proof.
  eapply (NewPool_invariant ctx_bound); eauto using ctx_bound_step.
  intros i p t H. discriminate H.
Qed.

Lemma reachable_buffers_bounded : buffers_bounded c.
Proof.
  eapply (NewPool_invariant buffers_bounded); eauto using buffers_bounded_step.
  split; [simpl; unfold queue_cap; lia | intros t tk H; discriminate H].
Qed.

Lemma reachable_submitted_valid : submitted_valid c.
Proof. by eapply submitted_valid_reachable. Qed.

Lemma reachable_held_valid i p t :
  threads c !! i = Some p -> holding t p = true -> is_Some (heap c !! t).
Proof.
  intros Hi Hh. apply lookup_lt_is_Some.
  apply reachable_submitted_valid.
  pose proof (reachable_conserved _ _ _ _ _ Hrun t) as Hc.
  pose proof (tally_lookup (holding t) _ i p Hi Hh). unfold conserved in Hc.
  lia.
Qed.
End Reachable2.

